(** * fbc-filter: a shallow embedding of [main.go] and its filtering rules

    The program prunes an operator catalog (packages, channels, bundles)
    according to a [FilterConfiguration].  This file embeds the functions of
    [main.go] ([filterV1], [filterPackages], [filterChannels],
    [setDefaultChannel], [filterBundles],
    [isOrContainsBundleInVersionRange], [blangToMM] and the configuration
    check of [main]) and proves properties of them.

    Modelling conventions.
    - Go maps keyed by name are [gmap string _].
    - A [*model.Bundle] is an [option Bundle]: [None] is the nil pointer.
      Pointer comparison ([cur != tail]) is comparison of the records; the
      bundles of one channel are stored under distinct names, so distinct
      pointers hold distinct records.
    - [p.DefaultChannel] is a [*model.Channel] of which the code only reads
      [.Name]; it is represented by that name.  Likewise [ch.Package] is
      represented by the package name.
    - [warnf] appends to a log; every function returns the warnings it
      emitted, in order.
    - Loops that follow [Replaces] pointers and the recursion of
      [isOrContainsBundleInVersionRange] have no bound in the source; they
      take a fuel argument and answer [Diverges] when it runs out.
    - What the program imports and does not define is an interface:
      [SemverLib] for Masterminds/semver (versions, constraints, [Check]),
      [RegistryLib] for operator-registry ([Head], [Validate] and the
      conversions of [declcfg]), [Environment] for what [main] reads and
      writes.  Module [Scenario] gives instances on which the scenarios
      are run. *)

From Stdlib Require Import String Ascii.
From stdpp Require Import base option list strings gmap fin_maps pretty.

(** ** Data model *)

(** [blangsemver.PRVersion] *)
Record PRVersion := mkPRVersion {
  VersionStr : string;
  VersionNum : N;
  IsNum : bool
}.

(** [blangsemver.Version] *)
Record blangVersion := mkBlangVersion {
  Major : N;
  Minor : N;
  Patch : N;
  Pre : list PRVersion;
  Build : list string
}.

(** [model.Bundle], restricted to the fields [main.go] reads. *)
Record Bundle := mkBundle {
  Name : string;
  Version : blangVersion;
  Replaces : string;
  Skips : list string
}.

(** [model.Channel]; [ChPackage] stands for [ch.Package.Name]. *)
Record Channel := mkChannel {
  ChPackage : string;
  ChName : string;
  Bundles : gmap string Bundle
}.

(** [model.Package]; [DefaultChannel] stands for [p.DefaultChannel.Name]. *)
Record Package := mkPackage {
  PkgName : string;
  DefaultChannel : string;
  Channels : gmap string Channel
}.

(** [model.Model] is [map[string]*Package]. *)
Abbreviation Model := (gmap string Package).

(** [v1.Channel], [v1.Package], [v1.FilterConfiguration] of
    [api/config/v1/filter.go]. *)
Record v1Channel := mkV1Channel {
  CName : string;
  VersionRange : string
}.

Record v1Package := mkV1Package {
  PName : string;
  PDefaultChannel : string;
  PChannels : list v1Channel
}.

Record FilterConfiguration := mkFilterConfiguration {
  Kind : string;
  APIVersion : string;
  Packages : list v1Package
}.

#[global] Instance PRVersion_eq_dec : EqDecision PRVersion.
Proof. solve_decision. Defined.
#[global] Instance blangVersion_eq_dec : EqDecision blangVersion.
Proof. solve_decision. Defined.
#[global] Instance Bundle_eq_dec : EqDecision Bundle.
Proof. solve_decision. Defined.

(** ** Outcomes, errors and warnings *)

(** What running a piece of the program can do: never come back, panic on a
    nil pointer, or return. *)
Inductive outcome (A : Type) : Type :=
  | Diverges
  | NilDeref
  | Ret (a : A).
Arguments Diverges {A}.
Arguments NilDeref {A}.
Arguments Ret {A} a.

Definition obind {A B} (o : outcome A) (k : A → outcome B) : outcome B :=
  match o with
  | Diverges => Diverges
  | NilDeref => NilDeref
  | Ret a => k a
  end.

Notation "'let*' x ':=' o 'in' k" := (obind o (fun x => k))
  (at level 10, x pattern, o at level 100, k at level 200, only parsing).

(** One constructor per [fmt.Errorf] of [main.go]; the arguments are the
    arguments of the format string, in order.  [ErrExternal] is an error
    value that comes from a library. *)
Inductive error :=
  | ErrExternal (msg : string)
  | ErrFilterChannels (pkg : string) (inner : error)
  | ErrFilterBundles (name : string) (inner : error)
  | ErrInvalidModel (inner : error)
  | ErrDefaultChannelConfig (inner : error)
  | ErrOverrideAndDefaultMissing (override original : string)
  | ErrDefaultFilteredOut (original : string)
  | ErrHead (ch : string) (inner : error)
  | ErrInvalidRange (range ch : string) (inner : error)
  | ErrNoBundlesInRange (ch pkg range : string).

(** One constructor per [warnf] call. *)
Inductive warning :=
  | WarnPackageNotFound (pkg : string)
  | WarnChannelNotFound (ch pkg : string)
  | WarnOverrideIgnored (override : string)
  | WarnOutsideRange (bundle version ch pkg range : string).

(** The [%q] verb on the names the program prints: the string between
    double quotes (names that need no escaping). *)
Definition dquote : string := String "034"%char EmptyString.
Definition quote (s : string) : string := dquote +:+ s +:+ dquote.

Fixpoint renderError (e : error) : string :=
  match e with
  | ErrExternal msg => msg
  | ErrFilterChannels pkg inner =>
      "could not filter channels in package " +:+ quote pkg +:+ ": " +:+ renderError inner
  | ErrFilterBundles name inner =>
      "could not filter bundles in package " +:+ quote name +:+ ": " +:+ renderError inner
  | ErrInvalidModel inner =>
      "filtered model is invalid: " +:+ renderError inner
  | ErrDefaultChannelConfig inner =>
      "invalid default channel filter configuration: " +:+ renderError inner
  | ErrOverrideAndDefaultMissing override original =>
      "specified default channel override " +:+ quote override
      +:+ " does not exist, and original default channel " +:+ quote original
      +:+ " does not exist"
  | ErrDefaultFilteredOut original =>
      "the default channel " +:+ quote original
      +:+ " was filtered out, a new default channel must be configured in the FilterConfiguration for this package"
  | ErrHead ch inner =>
      "error getting head of channel " +:+ quote ch +:+ ": " +:+ renderError inner
  | ErrInvalidRange range ch inner =>
      "invalid version range " +:+ quote range +:+ " for channel " +:+ quote ch
      +:+ ": " +:+ renderError inner
  | ErrNoBundlesInRange ch pkg range =>
      "invalid filter configuration: no bundles in channel " +:+ quote ch
      +:+ " for package " +:+ quote pkg +:+ " matched the version range " +:+ quote range
  end.

Definition renderWarning (w : warning) : string :=
  match w with
  | WarnPackageNotFound pkg => "package " +:+ quote pkg +:+ " not found in catalog"
  | WarnChannelNotFound ch pkg =>
      "channel " +:+ quote ch +:+ " not found in package " +:+ quote pkg
  | WarnOverrideIgnored override =>
      "specified default channel override " +:+ quote override
      +:+ " does not exist, keeping original default channel from catalog"
  | WarnOutsideRange bundle version ch pkg range =>
      "including bundle " +:+ quote bundle +:+ " with version " +:+ quote version
      +:+ " in channel " +:+ quote ch +:+ " for package " +:+ quote pkg
      +:+ ": it falls outside the specified range of " +:+ quote range
      +:+ " but is required to ensure inclusion of all bundles in the range"
  end.

(** [s] occurs in [t]. *)
Definition includes (s t : string) : Prop :=
  ∃ pre post, t = pre +:+ s +:+ post.

(** ** Imported libraries *)

(** [github.com/Masterminds/semver/v3]: versions, constraints and their
    membership test. *)
Class SemverLib := {
  mmVersion : Type;
  mmNew : N → N → N → string → string → mmVersion;
  mmString : mmVersion → string;
  Constraints : Type;
  NewConstraint : string → error + Constraints;
  Check : Constraints → mmVersion → bool
}.

(** [operator-registry]: head resolution of a channel (a non-nil bundle or
    an error), validation of a model, and the conversions between the
    declarative configuration and the model. *)
Class RegistryLib := {
  Head : Channel → error + Bundle;
  Validate : Model → option error;
  DeclarativeConfig : Type;
  ConvertToModel : DeclarativeConfig → error + Model;
  ConvertFromModel : Model → DeclarativeConfig
}.

(** ** [blangToMM] *)

(** [strings.Join] *)
Fixpoint join (l : list string) (sep : string) : string :=
  match l with
  | [] => ""
  | [s] => s
  | s :: l' => s +:+ sep +:+ join l' sep
  end.

(** [PRVersion.String] *)
Definition PRVersion_String (p : PRVersion) : string :=
  if IsNum p then pretty (VersionNum p) else VersionStr p.

Definition blangToMM {sem : SemverLib} (v : blangVersion) : mmVersion :=
  let pres := map PRVersion_String (Pre v) in
  mmNew (Major v) (Minor v) (Patch v) (join pres ".") (join (Build v) ".").

(** ** [filterBundles] and [isOrContainsBundleInVersionRange] *)

Section Bundles.
Context {sem : SemverLib}.
Variable versionRange : Constraints.
Variable ch : Channel.

(** [versionRange.Check(blangToMM(b.Version))] *)
Definition inRange (b : Bundle) : bool :=
  Check versionRange (blangToMM (Version b)).

(** [ch.Bundles[b.Replaces]]: nil when the name is not in the map. *)
Definition replaced (b : Bundle) : option Bundle :=
  Bundles ch !! Replaces b.

(** The loop over [b.Skips] that the source writes three times: is there
    a skip entry that resolves in the channel to a bundle in the range? *)
Definition skipsIntoRange (b : Bundle) : bool :=
  existsb (fun skip =>
             match Bundles ch !! skip with
             | Some skipBundle => inRange skipBundle
             | None => false
             end) (Skips b).

Fixpoint isOrContainsBundleInVersionRange (fuel : nat) (b : Bundle)
  : outcome bool :=
  if inRange b then Ret true
  else if skipsIntoRange b then Ret true
  else match Bundles ch !! Replaces b with
       | Some replacesBundle =>
           match fuel with
           | O => Diverges
           | S fuel' => isOrContainsBundleInVersionRange fuel' replacesBundle
           end
       | None => Ret false
       end.

(** The first loop of [filterBundles].  The result is the pair
    [(head, cur)] at the exit of the loop: when the head is found through
    its skips the inner [break] leaves only the inner loop, so [cur] has
    already moved to the replaced bundle. *)
Fixpoint findHead (fuel : nat) (cur : option Bundle)
  : outcome (option Bundle * option Bundle) :=
  match cur with
  | None => Ret (None, None)
  | Some b =>
      if inRange b then Ret (Some b, Some b)
      else if skipsIntoRange b then Ret (Some b, replaced b)
      else match fuel with
           | O => Diverges
           | S fuel' => findHead fuel' (replaced b)
           end
  end.

(** The second loop: the tail boundary. *)
Fixpoint findTail (fuel : nat) (cur : option Bundle)
  : outcome (option Bundle) :=
  match cur with
  | None => Ret None
  | Some b =>
      let* r := isOrContainsBundleInVersionRange fuel b in
      if r then
        match fuel with
        | O => Diverges
        | S fuel' => findTail fuel' (replaced b)
        end
      else Ret (Some b)
  end.

(** The inner loop of the third loop: add the skips that resolve into
    the range, under the name of the bundle found. *)
Definition addSkips (b : Bundle) (bundles : gmap string Bundle)
  : gmap string Bundle :=
  foldl (fun acc skip =>
           match Bundles ch !! skip with
           | Some skipBundle =>
               if inRange skipBundle
               then <[Name skipBundle := skipBundle]> acc
               else acc
           | None => acc
           end) bundles (Skips b).

Variable channelConfig : v1Channel.

Definition outsideRangeWarning (b : Bundle) : warning :=
  WarnOutsideRange (Name b) (mmString (blangToMM (Version b)))
                   (ChName ch) (ChPackage ch) (VersionRange channelConfig).

(** The third loop, [for cur = head; cur != tail; cur = ...]: the guard
    compares with [tail] only, so the body dereferences [cur] whatever it
    is. *)
Fixpoint collect (fuel : nat) (cur tail : option Bundle)
    (bundles : gmap string Bundle) (warnings : list warning)
  : outcome (gmap string Bundle * list warning) :=
  if decide (cur = tail) then Ret (bundles, warnings)
  else match cur with
       | None => NilDeref
       | Some b =>
           let warnings' :=
             if inRange b then warnings
             else warnings ++ [outsideRangeWarning b] in
           let bundles' := addSkips b (<[Name b := b]> bundles) in
           match fuel with
           | O => Diverges
           | S fuel' => collect fuel' (replaced b) tail bundles' warnings'
           end
       end.
End Bundles.

(** [filterBundles] returns the error (if any), the channel as the call
    leaves it, and the warnings emitted. *)
Definition filterBundles {sem : SemverLib} {reg : RegistryLib} (fuel : nat)
    (ch : Channel) (channelConfig : v1Channel)
  : outcome (option error * Channel * list warning) :=
  match Head ch with
  | inl err => Ret (Some (ErrHead (ChName ch) err), ch, [])
  | inr first =>
      match NewConstraint (VersionRange channelConfig) with
      | inl err =>
          Ret (Some (ErrInvalidRange (VersionRange channelConfig) (ChName ch) err),
               ch, [])
      | inr versionRange =>
          let* (head, cur) := findHead versionRange ch fuel (Some first) in
          let* tail := findTail versionRange ch fuel cur in
          let* (bundles, warnings) :=
            collect versionRange ch channelConfig fuel head tail ∅ [] in
          if decide (size bundles = 0) then
            Ret (Some (ErrNoBundlesInRange (ChName ch) (ChPackage ch)
                         (VersionRange channelConfig)), ch, warnings)
          else
            Ret (None, mkChannel (ChPackage ch) (ChName ch) bundles, warnings)
      end
  end.

(** ** [filterPackages], [filterChannels], [setDefaultChannel] *)

(** The loop [for _, v := range m { if !keep.Has(v.Name) { delete(m, v.Name) } }]
    that [filterPackages] and [filterChannels] share.  The entries are
    visited in the order of [map_to_list] (Go leaves the order open); an
    entry deleted before the iteration reaches it is not visited. *)
Definition rangeDelete {V} (name : V → string) (keep : gset string)
    (m : gmap string V) : gmap string V :=
  foldl (fun acc '(k, v) =>
           match acc !! k with
           | None => acc
           | Some _ =>
               if decide (name v ∈ keep) then acc else delete (name v) acc
           end) m (map_to_list m).

Definition filterPackages (m : Model) (packageConfigs : list v1Package) : Model :=
  let packages : gset string := list_to_set (PName <$> packageConfigs) in
  rangeDelete PkgName packages m.

(** Returns the error, the package as the call leaves it and the warnings. *)
Definition setDefaultChannel (p : Package) (pkgConfig : v1Package)
  : option error * Package * list warning :=
  let defaultChannelStillExists :=
    bool_decide (is_Some (Channels p !! DefaultChannel p)) in
  if decide (PDefaultChannel pkgConfig ≠ "") then
    match Channels p !! PDefaultChannel pkgConfig with
    | Some configDefaultChannel =>
        (None, mkPackage (PkgName p) (ChName configDefaultChannel) (Channels p), [])
    | None =>
        if defaultChannelStillExists then
          (None, p, [WarnOverrideIgnored (PDefaultChannel pkgConfig)])
        else
          (Some (ErrOverrideAndDefaultMissing (PDefaultChannel pkgConfig)
                   (DefaultChannel p)), p, [])
    end
  else if negb defaultChannelStillExists then
    (Some (ErrDefaultFilteredOut (DefaultChannel p)), p, [])
  else (None, p, []).

Definition filterChannels (p : Package) (pkgConfig : v1Package)
  : option error * Package * list warning :=
  let p1 :=
    if decide (0 < length (PChannels pkgConfig)) then
      let channels : gset string := list_to_set (CName <$> PChannels pkgConfig) in
      mkPackage (PkgName p) (DefaultChannel p)
                (rangeDelete ChName channels (Channels p))
    else p in
  match setDefaultChannel p1 pkgConfig with
  | (Some err, p2, warnings) => (Some (ErrDefaultChannelConfig err), p2, warnings)
  | (None, p2, warnings) => (None, p2, warnings)
  end.

(** ** [filterV1] *)

Section FilterV1.
Context {sem : SemverLib} {reg : RegistryLib}.

(** The loop [for _, c := range p.Channels] of [filterV1], on the package
    found under [p.Name]. *)
Fixpoint filterV1_channels (fuel : nat) (pName : string) (pkgModel : Package)
    (cs : list v1Channel) : outcome (option error * Package * list warning) :=
  match cs with
  | [] => Ret (None, pkgModel, [])
  | c :: cs' =>
      match Channels pkgModel !! CName c with
      | None =>
          let* (err, pkgModel', warnings) :=
            filterV1_channels fuel pName pkgModel cs' in
          Ret (err, pkgModel', WarnChannelNotFound (CName c) pName :: warnings)
      | Some ch =>
          if decide (VersionRange c ≠ "") then
            let* (err, ch', warnings) := filterBundles fuel ch c in
            let pkgModel' :=
              mkPackage (PkgName pkgModel) (DefaultChannel pkgModel)
                        (<[CName c := ch']> (Channels pkgModel)) in
            match err with
            | Some e => Ret (Some (ErrFilterBundles (CName c) e), pkgModel', warnings)
            | None =>
                let* (err', pkgModel'', warnings') :=
                  filterV1_channels fuel pName pkgModel' cs' in
                Ret (err', pkgModel'', warnings ++ warnings')
            end
          else filterV1_channels fuel pName pkgModel cs'
      end
  end.

(** The loop [for _, p := range configuration.Packages] of [filterV1]. *)
Fixpoint filterV1_packages (fuel : nat) (m : Model) (ps : list v1Package)
  : outcome (option error * Model * list warning) :=
  match ps with
  | [] => Ret (None, m, [])
  | p :: ps' =>
      match m !! PName p with
      | None =>
          let* (err, m', warnings) := filterV1_packages fuel m ps' in
          Ret (err, m', WarnPackageNotFound (PName p) :: warnings)
      | Some pkgModel =>
          match filterChannels pkgModel p with
          | (Some e, pkgModel1, warnings1) =>
              Ret (Some (ErrFilterChannels (PName p) e),
                   <[PName p := pkgModel1]> m, warnings1)
          | (None, pkgModel1, warnings1) =>
              let* (err, pkgModel2, warnings2) :=
                filterV1_channels fuel (PName p) pkgModel1 (PChannels p) in
              let m' := <[PName p := pkgModel2]> m in
              match err with
              | Some e => Ret (Some e, m', warnings1 ++ warnings2)
              | None =>
                  let* (err', m'', warnings3) := filterV1_packages fuel m' ps' in
                  Ret (err', m'', warnings1 ++ warnings2 ++ warnings3)
              end
          end
      end
  end.

(** [filterV1] returns the error, the value of [*fbc] when it returns and
    the warnings. *)
Definition filterV1 (fuel : nat) (fbc : DeclarativeConfig)
    (configuration : FilterConfiguration)
  : outcome (option error * DeclarativeConfig * list warning) :=
  match ConvertToModel fbc with
  | inl err => Ret (Some err, fbc, [])
  | inr m =>
      let m1 := filterPackages m (Packages configuration) in
      let* (err, m2, warnings) :=
        filterV1_packages fuel m1 (Packages configuration) in
      match err with
      | Some e => Ret (Some e, fbc, warnings)
      | None =>
          match Validate m2 with
          | Some e => Ret (Some (ErrInvalidModel e), fbc, warnings)
          | None => Ret (None, ConvertFromModel m2, warnings)
          end
      end
  end.
End FilterV1.

(** ** [main] *)

(** What [main] gets from the operating system and from the libraries it
    calls before and after [filterV1]. *)
Class Environment {reg : RegistryLib} := {
  ReadFile : string → error + string;
  Unmarshal : string → error + FilterConfiguration;
  Render : list string → bool → error + DeclarativeConfig;
  WriteYAML : DeclarativeConfig → option error;
  WriteJSON : DeclarativeConfig → option error
}.

(** Where [main] called [os.Exit(1)]. *)
Inductive exitPoint :=
  | ExitReadConfig
  | ExitParseConfig
  | ExitInvalidConfig
  | ExitRender
  | ExitFilter
  | ExitWrite.

(** The guard of line 40. *)
Definition configRejected (config : FilterConfiguration) : bool :=
  bool_decide (Kind config ≠ "FilterConfiguration")
  && bool_decide (APIVersion config ≠ "olm.operatorframework.io/v1").

(** [main], that is the [Run] closure of its command: the exit point
    ([None] when it returns) and the lines written to standard error.  An
    output format other than [yaml] and [json] leaves [write] nil, and
    calling it panics. *)
Definition main {sem : SemverLib} {reg : RegistryLib} {env : Environment} (fuel : nat)
    (configFile : string) (migrate : bool) (output : string)
    (args : list string) : outcome (option exitPoint * list string) :=
  match ReadFile configFile with
  | inl err =>
      Ret (Some ExitReadConfig,
           ["error reading configuration file: " +:+ renderError err])
  | inr configData =>
      match Unmarshal configData with
      | inl err =>
          Ret (Some ExitParseConfig,
               ["error parsing configuration file: " +:+ renderError err])
      | inr config =>
          if configRejected config then
            Ret (Some ExitInvalidConfig,
                 ["invalid configuration file: expected kind FilterConfiguration and APIVersion olm.operatorframework.io/v1, got "
                  +:+ Kind config +:+ "/" +:+ APIVersion config])
          else
            match Render args migrate with
            | inl err =>
                Ret (Some ExitRender, ["error rendering input: " +:+ renderError err])
            | inr fbc =>
                let* (err, fbc', warnings) := filterV1 fuel fbc config in
                let log := renderWarning <$> warnings in
                match err with
                | Some e =>
                    Ret (Some ExitFilter,
                         log ++ ["error filtering input: " +:+ renderError e])
                | None =>
                    let written :=
                      if decide (output = "yaml") then Ret (WriteYAML fbc', log)
                      else if decide (output = "json") then Ret (WriteJSON fbc', log)
                      else NilDeref in
                    let* (werr, log') := written in
                    match werr with
                    | Some e =>
                        Ret (Some ExitWrite,
                             log' ++ ["error writing output: " +:+ renderError e])
                    | None => Ret (None, log')
                    end
                end
            end
      end
  end.

(** ** Instances of the libraries for the worked scenarios *)

Module Scenario.

(** Versions as [mmsemver.New] stores them and as [Version.String] prints
    them. *)
Definition relVersion : Type := N * N * N * string * string.

Definition relString (v : relVersion) : string :=
  let '(major, minor, patch, pre, metadata) := v in
  pretty major +:+ "." +:+ pretty minor +:+ "." +:+ pretty patch
  +:+ (if decide (pre = "") then "" else "-" +:+ pre)
  +:+ (if decide (metadata = "") then "" else "+" +:+ metadata).

(** Range expressions: alternatives ([||]) of conjunctions of comparisons
    with a release version. *)
Inductive cmpOp := OpGe | OpGt | OpLe | OpLt.

Definition triple : Type := N * N * N.

Definition tripleCompare (a b : triple) : comparison :=
  let '(a1, a2, a3) := a in
  let '(b1, b2, b3) := b in
  match N.compare a1 b1 with
  | Eq => match N.compare a2 b2 with
          | Eq => N.compare a3 b3
          | c => c
          end
  | c => c
  end.

Definition holds (v : triple) (c : cmpOp * triple) : bool :=
  match fst c, tripleCompare v (snd c) with
  | OpGe, (Eq | Gt) => true
  | OpGt, Gt => true
  | OpLe, (Eq | Lt) => true
  | OpLt, Lt => true
  | _, _ => false
  end.

Definition rangeExpr : Type := list (list (cmpOp * triple)).

(** A comparison without a pre-release part admits release versions
    only. *)
Definition relCheck (r : rangeExpr) (v : relVersion) : bool :=
  let '(major, minor, patch, pre, _) := v in
  bool_decide (pre = "")
  && existsb (forallb (holds (major, minor, patch))) r.

(** The range expressions of the scenarios; any other string is taken as
    malformed. *)
Definition relParse (s : string) : error + rangeExpr :=
  if decide (s = ">=1.1.0") then inr [[(OpGe, (1, 1, 0)%N)]]
  else if decide (s = ">=2.0.0") then inr [[(OpGe, (2, 0, 0)%N)]]
  else if decide (s = ">=2.0.0 <2.0.0")
       then inr [[(OpGe, (2, 0, 0)%N); (OpLt, (2, 0, 0)%N)]]
  else if decide (s = "<1.5.0") then inr [[(OpLt, (1, 5, 0)%N)]]
  else if decide (s = ">=2.0.0 || <1.5.0")
       then inr [[(OpGe, (2, 0, 0)%N)]; [(OpLt, (1, 5, 0)%N)]]
  else inl (ErrExternal ("improper constraint: " +:+ s)).

#[export] Instance semver : SemverLib := {|
  mmVersion := relVersion;
  mmNew major minor patch pre metadata := (major, minor, patch, pre, metadata);
  mmString := relString;
  Constraints := rangeExpr;
  NewConstraint := relParse;
  Check := relCheck
|}.

(** Head resolution as operator-registry does it: the bundles that no
    [Replaces] and no [Skips] entry of the channel names; exactly one of
    them must exist. *)
Definition incoming (ch : Channel) : list string :=
  mjoin ((fun '(_, b) =>
            (if decide (Replaces b = "") then [] else [Replaces b]) ++ Skips b)
           <$> map_to_list (Bundles ch)).

Definition graphHead (ch : Channel) : error + Bundle :=
  let referenced := incoming ch in
  let heads :=
    filter (fun b => Name b ∉ referenced) (snd <$> map_to_list (Bundles ch)) in
  match heads with
  | [] => inl (ErrExternal "no channel head found in graph")
  | [b] => inr b
  | _ => inl (ErrExternal "multiple channel heads found in graph")
  end.

(** The structural checks on a filtered model: every package is stored
    under its name, its default channel is one of its channels, and
    every channel has a head. *)
Definition validPackage (k : string) (p : Package) : bool :=
  bool_decide (PkgName p = k)
  && bool_decide (is_Some (Channels p !! DefaultChannel p))
  && forallb (fun '(_, ch) => match graphHead ch with inl _ => false | inr _ => true end)
             (map_to_list (Channels p)).

Definition validModel (m : Model) : option error :=
  if forallb (fun '(k, p) => validPackage k p) (map_to_list m) then None
  else Some (ErrExternal "invalid model").

(** The declarative configuration is kept in model form. *)
#[export] Instance registry : RegistryLib := {|
  Head := graphHead;
  Validate := validModel;
  DeclarativeConfig := Model;
  ConvertToModel m := inr m;
  ConvertFromModel m := m
|}.

Definition release (major minor patch : N) : blangVersion :=
  mkBlangVersion major minor patch [] [].

Definition channelOf (pkg name : string) (bs : list Bundle) : Channel :=
  mkChannel pkg name (list_to_map ((fun b => (Name b, b)) <$> bs)).

(** Scenario B and C: v1.0.0 <- v1.1.0 <- v2.0.0 (head). *)
Definition v100 := mkBundle "foo.v1.0.0" (release 1 0 0) "" [].
Definition v110 := mkBundle "foo.v1.1.0" (release 1 1 0) "foo.v1.0.0" [].
Definition v200 := mkBundle "foo.v2.0.0" (release 2 0 0) "foo.v1.1.0" [].
Definition stable : Channel := channelOf "foo" "stable" [v100; v110; v200].

(** Scenario E: v2.0.0 (head) replaces v1.5.0 and skips v1.2.0; v1.5.0
    replaces v1.2.0.  The range admits v2.0.0 and v1.2.0, not v1.5.0. *)
Definition e120 := mkBundle "foo.v1.2.0" (release 1 2 0) "" [].
Definition e150 := mkBundle "foo.v1.5.0" (release 1 5 0) "foo.v1.2.0" [].
Definition e200 :=
  mkBundle "foo.v2.0.0" (release 2 0 0) "foo.v1.5.0" ["foo.v1.2.0"].
Definition scenarioE : Channel := channelOf "foo" "stable" [e120; e150; e200].
Definition rangeE : v1Channel := mkV1Channel "stable" ">=2.0.0 || <1.5.0".
Definition parsedE : rangeExpr :=
  [[(OpGe, (2, 0, 0)%N)]; [(OpLt, (1, 5, 0)%N)]].

(** The same bundles when v1.5.0 replaces nothing, so that v1.2.0 is off
    the replaces-chain; and a range that admits v1.2.0 only. *)
Definition d150 := mkBundle "foo.v1.5.0" (release 1 5 0) "" [].
Definition deadEnd : Channel := channelOf "foo" "stable" [e120; d150; e200].
Definition rangeOld : v1Channel := mkV1Channel "stable" "<1.5.0".
Definition parsedOld : rangeExpr := [[(OpLt, (1, 5, 0)%N)]].

(** A channel with one head and a cycle below it:
    v3.0.0 -> v2.0.0 -> v1.0.0 -> v2.0.0. *)
Definition c100 := mkBundle "foo.v1.0.0" (release 1 0 0) "foo.v2.0.0" [].
Definition c200 := mkBundle "foo.v2.0.0" (release 2 0 0) "foo.v1.0.0" [].
Definition c300 := mkBundle "foo.v3.0.0" (release 3 0 0) "foo.v2.0.0" [].
Definition cyclic : Channel := channelOf "foo" "stable" [c100; c200; c300].
Definition rangeNone : v1Channel := mkV1Channel "stable" ">=2.0.0 <2.0.0".
Definition parsedNone : rangeExpr :=
  [[(OpGe, (2, 0, 0)%N); (OpLt, (2, 0, 0)%N)]].

(** A catalog with two packages; [foo] has the channels [stable]
    (default) and [alpha]. *)
Definition alpha : Channel := channelOf "foo" "alpha" [v100].
Definition pkgFoo : Package :=
  mkPackage "foo" "stable" (list_to_map [("stable", stable); ("alpha", alpha)]).
Definition barStable : Channel :=
  channelOf "bar" "stable" [mkBundle "bar.v0.1.0" (release 0 1 0) "" []].
Definition pkgBar : Package :=
  mkPackage "bar" "stable" (list_to_map [("stable", barStable)]).
Definition catalog : Model :=
  list_to_map [("foo", pkgFoo); ("bar", pkgBar)].

(** A package whose default channel is not among its channels, as
    pruning can leave it. *)
Definition pkgOrphan : Package :=
  mkPackage "foo" "stable" (list_to_map [("alpha", alpha)]).

Definition configOf (ps : list v1Package) : FilterConfiguration :=
  mkFilterConfiguration "FilterConfiguration" "olm.operatorframework.io/v1" ps.

(** An environment in which the configuration file parses to [config],
    the catalog renders to [catalog] and writing succeeds. *)
Definition envOf (config : FilterConfiguration) : Environment := {|
  ReadFile _ := inr "";
  Unmarshal _ := inr config;
  Render _ _ := inr catalog;
  WriteYAML _ := None;
  WriteJSON _ := None
|}.

End Scenario.


(** ** Maps keyed by name *)

(** Every entry is stored under its own name, as [declcfg.ConvertToModel]
    builds the maps of the model. *)
Definition keyedBy {V} (name : V → string) (m : gmap string V) : Prop :=
  map_Forall (fun k v => name v = k) m.

#[global] Instance keyedBy_dec {V} (name : V → string) (m : gmap string V) :
  Decision (keyedBy name m).
Proof. unfold keyedBy. apply _. Defined.

(** The names a configuration lists. *)
Definition packageNames (ps : list v1Package) : gset string :=
  list_to_set (PName <$> ps).

(** A filtered package against the package it comes from: same name, and
    every channel it has is a channel of the original, with the same
    bundles. *)
Definition prunedFrom (p' p : Package) : Prop :=
  PkgName p' = PkgName p ∧ Channels p' ⊆ Channels p.

(** A package after the whole filtering against the package before: same
    name, and every channel it has is a channel of the original, under the
    same key, with the same names and with bundles that all are bundles of
    the original channel. *)
Definition shrunkFrom (p' p : Package) : Prop :=
  PkgName p' = PkgName p
  ∧ ∀ cn ch', Channels p' !! cn = Some ch' →
      ∃ ch, Channels p !! cn = Some ch
            ∧ ChName ch' = ChName ch
            ∧ ChPackage ch' = ChPackage ch
            ∧ Bundles ch' ⊆ Bundles ch.

(** Every channel of the package stores its bundles under their names. *)
Definition keyedBundles (p : Package) : Prop :=
  map_Forall (fun _ ch => keyedBy Name (Bundles ch)) (Channels p).

#[global] Instance keyedBundles_dec p : Decision (keyedBundles p).
Proof. unfold keyedBundles. apply _. Defined.

(** The entries of [m] whose name is in [names]. *)
Definition keepNamed (names : gset string) (m : Model) : Model :=
  filter (fun kp => kp.1 ∈ names) m.

(** A model after pruning against the model before: the same packages,
    each pruned from the original. *)
Definition prunedModel (m' m : Model) : Prop :=
  dom m' = dom m
  ∧ ∀ n p', m' !! n = Some p' → ∃ p, m !! n = Some p ∧ prunedFrom p' p.

(** [s] occurs in [t], as a test. *)
Fixpoint prefixb (s t : string) : bool :=
  match s, t with
  | EmptyString, _ => true
  | String a s', String b t' => bool_decide (a = b) && prefixb s' t'
  | String _ _, EmptyString => false
  end.

Fixpoint includesb (s t : string) : bool :=
  prefixb s t
  || match t with
     | EmptyString => false
     | String _ t' => includesb s t'
     end.

(** ** Finite replaces-chains *)

Section Chains.
Context {sem : SemverLib}.
Variable versionRange : Constraints.
Variable ch : Channel.

Local Abbreviation inRange := (inRange versionRange).
Local Abbreviation replaced := (replaced ch).
Local Abbreviation skipsIntoRange := (skipsIntoRange versionRange ch).

(** [l] is the replaces-chain that starts at [cur]: each bundle is the
    one the previous bundle replaces, and the last one replaces a name
    that is not in the channel. *)
Fixpoint chain (cur : option Bundle) (l : list Bundle) : Prop :=
  match l with
  | [] => cur = None
  | b :: l' => cur = Some b ∧ chain (replaced b) l'
  end.

(** A bundle that keeps the chain alive: it is in the range or one of
    its skips resolves to a bundle in the range. *)
Definition reaches (b : Bundle) : bool := inRange b || skipsIntoRange b.

(** The chain from its first bundle that [reaches]. *)
Fixpoint fromFirst (l : list Bundle) : list Bundle :=
  match l with
  | [] => []
  | b :: l' => if reaches b then l else fromFirst l'
  end.

(** The chain up to its last bundle that [reaches]; and what follows. *)
Fixpoint upToLast (l : list Bundle) : list Bundle :=
  match l with
  | [] => []
  | b :: l' => if existsb reaches l then b :: upToLast l' else []
  end.

Fixpoint afterLast (l : list Bundle) : list Bundle :=
  match l with
  | [] => []
  | b :: l' => if existsb reaches l then afterLast l' else l
  end.

(** The chain bundles from the newest to the oldest one that [reaches]. *)
Definition segment (l : list Bundle) : list Bundle := upToLast (fromFirst l).

(** [b] lies on the chain [l], at or below a bundle that [reaches] and at
    or above one. *)
Definition spanned (l : list Bundle) (b : Bundle) : Prop :=
  ∃ l1 l2, l = l1 ++ b :: l2
           ∧ existsb reaches (l1 ++ [b]) = true
           ∧ existsb reaches (b :: l2) = true.

(** [b] lies on the chain [l] strictly between two bundles that are in
    the range: one above it and one below it. *)
Definition strictlyBetweenInRange (l : list Bundle) (b : Bundle) : Prop :=
  ∃ l1 l2, l = l1 ++ b :: l2
           ∧ existsb inRange l1 = true
           ∧ existsb inRange l2 = true.

(** [b] is a skip of [c] that resolves in the channel and is in the
    range. *)
Definition skipTargetOf (c b : Bundle) : Prop :=
  ∃ skip, skip ∈ Skips c ∧ Bundles ch !! skip = Some b ∧ inRange b = true.

(** The three reasons for which a bundle [b] may be in the bundle map
    [bundles] after filtering: it is in the range, it lies on the chain
    strictly between two in-range bundles, or it is an in-range skip of a
    bundle of [bundles]. *)
Definition retainedAsClaimed (l : list Bundle) (bundles : gmap string Bundle)
    (b : Bundle) : Prop :=
  inRange b = true
  ∨ strictlyBetweenInRange l b
  ∨ ∃ k c, bundles !! k = Some c ∧ skipTargetOf c b.

(** The bundle map the third loop builds from the bundles it visits. *)
Definition collected (l : list Bundle) (bundles : gmap string Bundle)
  : gmap string Bundle :=
  foldl (fun acc b => addSkips versionRange ch b (<[Name b := b]> acc)) bundles l.

(** The warnings of the bundles of [l] that are not in the range, in
    the order of [l]. *)
Definition warningsFor (channelConfig : v1Channel) (l : list Bundle)
  : list warning :=
  outsideRangeWarning ch channelConfig
    <$> filter (fun b => inRange b = false) l.

(** [n] steps along [Replaces], from a possibly nil pointer. *)
Fixpoint steps (n : nat) (cur : option Bundle) : option Bundle :=
  match n with
  | O => cur
  | S n' => steps n' (cur ≫= replaced)
  end.

(** A set of bundles the replaces-chain cannot leave and in which no
    bundle [reaches] the range: every bundle of [l] replaces a bundle of
    [l]. *)
Definition trapped (l : list Bundle) : bool :=
  forallb (fun b =>
             negb (reaches b)
             && match replaced b with
                | Some b' => bool_decide (b' ∈ l)
                | None => false
                end) l.
End Chains.

(** ** Facts about finite chains *)

Section ChainFacts.
Context {sem : SemverLib}.
Variable versionRange : Constraints.
Variable ch : Channel.


Lemma chain_head cur l : chain ch cur l → cur = head l.
Proof. destruct l; simpl; [done | by intros [-> _]]. Qed.

Lemma chain_det cur l1 l2 : chain ch cur l1 → chain ch cur l2 → l1 = l2.
Proof.
  revert cur l2. induction l1 as [|b l1 IH]; intros cur [|b2 l2]; simpl.
  - done.
  - intros -> [? _]. done.
  - intros [-> _] ?. done.
  - intros [-> H1] [[= <-] H2]. f_equal. eauto.
Qed.

Lemma chain_suffix cur l1 l2 : chain ch cur (l1 ++ l2) → chain ch (head l2) l2.
Proof.
  revert cur. induction l1 as [|b l1 IH]; intros cur; simpl.
  - intros Hc. by rewrite <- (chain_head _ _ Hc).
  - intros [_ Hc]. eauto.
Qed.

Lemma chain_NoDup cur l : chain ch cur l → NoDup l.
Proof.
  revert cur. induction l as [|b l IH]; intros cur; simpl.
  - constructor.
  - intros [-> Hc]. constructor; [|eauto].
    intros Hin. apply list_elem_of_split in Hin as (l1 & l2 & ->).
    pose proof (chain_suffix _ _ _ Hc) as Hs. simpl in Hs.
    destruct Hs as [_ Hs].
    pose proof (chain_det _ _ _ Hc Hs) as Heq.
    apply (f_equal length) in Heq. rewrite length_app in Heq. simpl in Heq. lia.
Qed.

Lemma reaches_false b :
  reaches versionRange ch b = false →
  inRange versionRange b = false ∧ skipsIntoRange versionRange ch b = false.
Proof. unfold reaches. apply orb_false_elim. Qed.

Lemma isOrContains_chain fuel b l :
  chain ch (Some b) l → length l ≤ fuel →
  isOrContainsBundleInVersionRange versionRange ch fuel b
  = Ret (existsb (reaches versionRange ch) l).
Proof.
  revert b l. induction fuel as [|fuel IH]; intros b [|b' l]; simpl;
    try done; try lia.
  intros [[= <-] Hc] Hlen.
  unfold reaches at 1.
  destruct (inRange versionRange b); [done|].
  destruct (skipsIntoRange versionRange ch b); [done|]. simpl.
  destruct l as [|b2 l]; simpl in Hc.
  - unfold replaced in Hc. by rewrite Hc.
  - destruct Hc as [Hr Hc]. unfold replaced in Hr. rewrite Hr.
    apply IH; [by split | simpl in *; lia].
Qed.

Lemma findHead_chain fuel cur l :
  chain ch cur l → length l ≤ fuel →
  findHead versionRange ch fuel cur
  = Ret (match fromFirst versionRange ch l with
         | [] => (None, None)
         | h :: _ => (Some h, if inRange versionRange h then Some h else replaced ch h)
         end).
Proof.
  revert cur l. induction fuel as [|fuel IH]; intros cur [|b l]; simpl;
    try (by intros ->); try lia.
  intros [-> Hc] Hlen. unfold reaches.
  destruct (inRange versionRange b) eqn:Hin; simpl.
  { by rewrite Hin. }
  destruct (skipsIntoRange versionRange ch b) eqn:Hsk; simpl.
  { by rewrite Hin. }
  apply IH; [done | lia].
Qed.

Lemma findTail_chain fuel cur l :
  chain ch cur l → length l ≤ fuel →
  findTail versionRange ch fuel cur = Ret (head (afterLast versionRange ch l)).
Proof.
  revert cur l. induction fuel as [|fuel IH]; intros cur [|b l];
    try (by simpl; intros ->); try (simpl; lia).
  intros Hc Hlen. pose proof Hc as [-> Hc'].
  cbn [findTail obind].
  rewrite (isOrContains_chain (S fuel) b (b :: l) Hc Hlen).
  cbn [obind afterLast].
  destruct (existsb (reaches versionRange ch) (b :: l)); [|done].
  apply IH; [done | simpl in Hlen; lia].
Qed.

Lemma upToLast_afterLast l : upToLast versionRange ch l ++ afterLast versionRange ch l = l.
Proof.
  induction l as [|b l IH]; [done|]. cbn [upToLast afterLast].
  destruct (existsb (reaches versionRange ch) (b :: l)); [|done]. simpl. by rewrite IH.
Qed.

Lemma fromFirst_split l :
  ∃ l0, l = l0 ++ fromFirst versionRange ch l ∧ existsb (reaches versionRange ch) l0 = false.
Proof.
  induction l as [|b l (l0 & IH & Hl0)]; [by exists []|]. simpl.
  destruct (reaches versionRange ch b) eqn:Hb.
  - by exists [].
  - exists (b :: l0). simpl. rewrite Hb, Hl0. split; [by f_equal | done].
Qed.

Lemma fromFirst_cons l h l' :
  fromFirst versionRange ch l = h :: l' → reaches versionRange ch h = true.
Proof.
  induction l as [|b l IH]; [done|]. simpl.
  destruct (reaches versionRange ch b) eqn:Hb; [|done]. by intros [= <- _].
Qed.

(** A chain splits into the bundles above the segment, the segment and
    the bundles below it. *)
Lemma segment_split l :
  ∃ l0, l = l0 ++ segment versionRange ch l
                 ++ afterLast versionRange ch (fromFirst versionRange ch l)
        ∧ existsb (reaches versionRange ch) l0 = false.
Proof.
  destruct (fromFirst_split l) as (l0 & Hl & Hl0). exists l0. split; [|done].
  unfold segment. by rewrite upToLast_afterLast.
Qed.

Lemma afterLast_unreached l :
  existsb (reaches versionRange ch) (afterLast versionRange ch l) = false.
Proof.
  induction l as [|b l IH]; [done|]. cbn [afterLast].
  destruct (existsb (reaches versionRange ch) (b :: l)) eqn:Hex; [done|]. done.
Qed.

Lemma upToLast_last l b l2 :
  upToLast versionRange ch l = b :: l2 → existsb (reaches versionRange ch) (b :: l2) = true.
Proof.
  revert b l2. induction l as [|x l IH]; intros b l2; [done|].
  cbn [upToLast].
  destruct (existsb (reaches versionRange ch) (x :: l)) eqn:Hex; [|done].
  intros [= -> Hl2].
  simpl in Hex. apply orb_true_iff in Hex as [Hb|Hex]; simpl.
  { by rewrite Hb. }
  destruct l as [|y l]; [done|].
  cbn [upToLast] in Hl2. rewrite Hex in Hl2.
  destruct l2 as [|y2 l2]; [done|]. injection Hl2 as <- Hl2.
  rewrite (IH y l2); [by rewrite orb_true_r|].
  cbn [upToLast]. by rewrite Hex, Hl2.
Qed.

Lemma upToLast_suffix l s1 b s2 :
  upToLast versionRange ch l = s1 ++ b :: s2 → existsb (reaches versionRange ch) (b :: s2) = true.
Proof.
  revert l. induction s1 as [|a s1 IH]; intros l; [apply upToLast_last|].
  destruct l as [|x l]; [done|]. cbn [upToLast].
  destruct (existsb (reaches versionRange ch) (x :: l)); [|done].
  intros [= _ Hl]. eauto.
Qed.

Lemma upToLast_keeps l1 b l2 :
  existsb (reaches versionRange ch) (b :: l2) = true →
  ∃ s2, upToLast versionRange ch (l1 ++ b :: l2) = l1 ++ b :: s2.
Proof.
  intros Hb. induction l1 as [|a l1 (s2 & IH)].
  - exists (upToLast versionRange ch l2). cbn [app upToLast]. by rewrite Hb.
  - exists s2. cbn [app upToLast]. rewrite <- IH.
    replace (existsb (reaches versionRange ch) (a :: l1 ++ b :: l2)) with true; [done|].
    symmetry. change (a :: l1 ++ b :: l2) with ((a :: l1) ++ b :: l2).
    rewrite existsb_app, Hb. by rewrite orb_true_r.
Qed.

Lemma fromFirst_keeps l1 b l2 :
  existsb (reaches versionRange ch) (l1 ++ [b]) = true →
  ∃ l1', fromFirst versionRange ch (l1 ++ b :: l2) = l1' ++ b :: l2.
Proof.
  induction l1 as [|a l1 IH]; simpl.
  - rewrite orb_false_r. intros ->. by exists [].
  - destruct (reaches versionRange ch a); [by exists (a :: l1)|]. simpl. done.
Qed.

(** The segment holds exactly the chain bundles that are [spanned]. *)
Lemma elem_of_segment l b :
  b ∈ segment versionRange ch l ↔ spanned versionRange ch l b.
Proof.
  split.
  - intros Hin. apply list_elem_of_split in Hin as (s1 & s2 & Hseg).
    destruct (segment_split l) as (l0 & Hl & Hl0).
    exists (l0 ++ s1),
      (s2 ++ afterLast versionRange ch (fromFirst versionRange ch l)).
    split; [|split].
    + rewrite Hl at 1. rewrite Hseg. by rewrite <- !app_assoc.
    + unfold segment in Hseg.
      destruct (fromFirst versionRange ch l) as [|h t] eqn:Hff; [by destruct s1|].
      pose proof (fromFirst_cons _ _ _ Hff) as Hh.
      cbn [upToLast] in Hseg.
      destruct (existsb (reaches versionRange ch) (h :: t)); [|by destruct s1].
      rewrite <- app_assoc, existsb_app.
      destruct s1 as [|a s1]; injection Hseg as <- _; simpl; rewrite Hh;
        by rewrite ?orb_true_r.
    + pose proof (upToLast_suffix _ _ _ _ Hseg) as Hb.
      change (b :: s2 ++ afterLast versionRange ch (fromFirst versionRange ch l))
        with ((b :: s2) ++ afterLast versionRange ch (fromFirst versionRange ch l)).
      by rewrite existsb_app, Hb.
  - intros (l1 & l2 & -> & Habove & Hbelow).
    destruct (fromFirst_keeps l1 b l2 Habove) as (l1' & Hff).
    destruct (upToLast_keeps l1' b l2 Hbelow) as (s2 & Hup).
    unfold segment. rewrite Hff, Hup.
    apply elem_of_app. right. by left.
Qed.

(** *** The third loop *)

Variable channelConfig : v1Channel.



Lemma collect_chain fuel cur seg rest bundles warnings :
  chain ch cur (seg ++ rest) → length seg ≤ fuel →
  collect versionRange ch channelConfig fuel cur (head rest) bundles warnings
  = Ret (collected versionRange ch seg bundles,
         warnings ++ warningsFor versionRange ch channelConfig seg).
Proof.
  intros Hc. pose proof (chain_NoDup _ _ Hc) as Hnd.
  revert fuel cur bundles warnings Hc Hnd.
  induction seg as [|b seg IH]; intros fuel cur bundles warnings Hc Hnd Hlen.
  - simpl in Hc. apply chain_head in Hc as ->.
    destruct fuel; simpl; rewrite decide_True by done;
      by rewrite app_nil_r.
  - destruct fuel as [|fuel]; [simpl in Hlen; lia|].
    destruct Hc as [-> Hc]. cbn [collect].
    rewrite decide_False.
    2:{ intros Heq. apply NoDup_cons in Hnd as [Hnot _]. apply Hnot.
        apply elem_of_app. right. destruct rest; [done|].
        injection Heq as ->. by left. }
    apply NoDup_cons in Hnd as [_ Hnd].
    rewrite (IH fuel); [|done|done|simpl in Hlen; lia].
    f_equal. f_equal. unfold warningsFor. rewrite filter_cons.
    destruct (inRange versionRange b) eqn:Hin.
    + by rewrite decide_False.
    + rewrite decide_True by done. rewrite fmap_cons.
      by rewrite <- app_assoc.
Qed.

(** *** The bundle map that is built *)

Lemma addSkips_lookup b bundles k v :
  addSkips versionRange ch b bundles !! k = Some v →
  bundles !! k = Some v ∨ skipTargetOf versionRange ch b v.
Proof.
  unfold addSkips, skipTargetOf.
  generalize (Skips b) as skips. intros skips. revert bundles.
  induction skips as [|skip skips IH] using rev_ind; intros bundles; simpl.
  { by left. }
  rewrite foldl_app. simpl.
  destruct (Bundles ch !! skip) as [skipBundle|] eqn:Hskip.
  2:{ intros [?|(s & ? & ?)]%IH; [by left|right].
      exists s. split; [apply elem_of_app; by left | done]. }
  destruct (inRange versionRange skipBundle) eqn:Hin.
  2:{ intros [?|(s & ? & ?)]%IH; [by left|right].
      exists s. split; [apply elem_of_app; by left | done]. }
  rewrite lookup_insert. case_decide as Hk.
  - intros [= <-]. right. exists skip.
    split; [apply elem_of_app; right; by left | done].
  - intros [?|(s & ? & ?)]%IH; [by left|right].
    exists s. split; [apply elem_of_app; by left | done].
Qed.

Lemma addSkips_keeps b bundles k :
  is_Some (bundles !! k) → is_Some (addSkips versionRange ch b bundles !! k).
Proof.
  unfold addSkips. generalize (Skips b) as skips. intros skips. revert bundles.
  induction skips as [|skip skips IH]; intros bundles Hk; simpl; [done|].
  apply IH. destruct (Bundles ch !! skip) as [skipBundle|]; [|done].
  destruct (inRange versionRange skipBundle); [|done].
  rewrite lookup_insert. by case_decide.
Qed.

(** Every bundle of the map built from [l] was in the map before, is a
    bundle of [l], or is the in-range skip of a bundle of [l]. *)
Lemma collected_lookup l bundles k v :
  collected versionRange ch l bundles !! k = Some v →
  bundles !! k = Some v ∨ v ∈ l
  ∨ ∃ c, c ∈ l ∧ skipTargetOf versionRange ch c v.
Proof.
  unfold collected. revert bundles.
  induction l as [|b l IH]; intros bundles; simpl; [by left|].
  intros [Hk|[Hv|(c & Hc & Hs)]]%IH.
  - apply addSkips_lookup in Hk as [Hk|Hs].
    + rewrite lookup_insert in Hk. case_decide.
      * injection Hk as <-. right. left. by left.
      * by left.
    + right. right. exists b. split; [by left | done].
  - right. left. by right.
  - right. right. exists c. split; [by right | done].
Qed.

Lemma collected_keeps l bundles k :
  is_Some (bundles !! k) → is_Some (collected versionRange ch l bundles !! k).
Proof.
  unfold collected. revert bundles.
  induction l as [|b l IH]; intros bundles Hk; simpl; [done|].
  apply IH, addSkips_keeps. rewrite lookup_insert. by case_decide.
Qed.

Lemma collected_size l : size (collected versionRange ch l ∅) = 0 ↔ l = [].
Proof.
  split; [|by intros ->].
  destruct l as [|b l]; [done|]. intros Hsz.
  apply map_size_empty_iff in Hsz.
  assert (is_Some (collected versionRange ch (b :: l) ∅ !! Name b)) as [v Hv].
  { unfold collected. simpl.
    apply (collected_keeps l), addSkips_keeps. by rewrite lookup_insert_eq. }
  rewrite Hsz, lookup_empty in Hv. done.
Qed.
End ChainFacts.

(** ** [filterBundles] on a channel whose chain is finite *)

Section FilterBundlesFacts.
Context {sem : SemverLib} {reg : RegistryLib}.

(** On a channel whose head resolves, whose range parses and whose
    replaces-chain from the head is [l], [filterBundles] returns as soon
    as the fuel covers the chain: with the empty-set error when no bundle
    of the chain [reaches] the range, and otherwise with the bundles of
    the segment and their in-range skips, warning about the bundles of the
    segment that are outside the range. *)
Lemma filterBundles_chain fuel ch channelConfig first versionRange l :
  Head ch = inr first →
  NewConstraint (VersionRange channelConfig) = inr versionRange →
  chain ch (Some first) l →
  length l ≤ fuel →
  filterBundles fuel ch channelConfig
  = Ret (match segment versionRange ch l with
         | [] => (Some (ErrNoBundlesInRange (ChName ch) (ChPackage ch)
                          (VersionRange channelConfig)), ch, [])
         | seg =>
             (None,
              mkChannel (ChPackage ch) (ChName ch)
                        (collected versionRange ch seg ∅),
              warningsFor versionRange ch channelConfig seg)
         end).
Proof.
  intros Hhead Hparse Hc Hlen. unfold filterBundles.
  rewrite Hhead, Hparse.
  rewrite (findHead_chain _ _ _ _ l Hc Hlen). cbn [obind].
  destruct (fromFirst_split versionRange ch l) as (l0 & Hl & Hl0).
  unfold segment.
  destruct (fromFirst versionRange ch l) as [|h t] eqn:Hff.
  { cbn [obind].
    rewrite (findTail_chain _ _ fuel None []) by (simpl; done || lia).
    cbn [obind afterLast head].
    rewrite (collect_chain _ _ channelConfig fuel None [] []) by (simpl; done || lia).
    simpl. by rewrite decide_True. }
  pose proof (fromFirst_cons _ _ _ _ _ Hff) as Hh.
  assert (chain ch (Some h) (h :: t)) as Hht.
  { rewrite Hl in Hc. by apply chain_suffix in Hc. }
  assert (length t < fuel) as Hlt.
  { apply (f_equal length) in Hl. rewrite length_app in Hl. simpl in Hl. lia. }
  assert (findTail versionRange ch fuel
            (if inRange versionRange h then Some h else replaced ch h)
          = Ret (head (afterLast versionRange ch (h :: t)))) as ->.
  { destruct (inRange versionRange h).
    - apply findTail_chain; [done | simpl; lia].
    - cbn [afterLast]. simpl existsb. rewrite Hh. simpl.
      destruct Hht as [_ Ht]. apply findTail_chain; [done | lia]. }
  cbn [obind].
  pose proof (upToLast_afterLast versionRange ch (h :: t)) as Hsplit.
  rewrite <- Hsplit in Hht.
  rewrite (collect_chain _ _ _ _ _ _ _ _ _ Hht).
  2:{ apply (f_equal length) in Hsplit. rewrite length_app in Hsplit.
      change (length (h :: t)) with (S (length t)) in Hsplit. lia. }
  cbn [obind].
  assert (upToLast versionRange ch (h :: t) ≠ []) as Hne.
  { cbn [upToLast]. simpl existsb. by rewrite Hh. }
  rewrite decide_False by (by rewrite collected_size).
  by destruct (upToLast versionRange ch (h :: t)).
Qed.
End FilterBundlesFacts.

(** ** Nil pointers and unbounded chains *)

Section Safety.
Context {sem : SemverLib}.
Variable versionRange : Constraints.
Variable ch : Channel.

Lemma steps_None n : steps ch n None = None.
Proof. induction n; simpl; done. Qed.

Lemma isOrContains_no_nil fuel b :
  isOrContainsBundleInVersionRange versionRange ch fuel b ≠ NilDeref.
Proof.
  revert b. induction fuel as [|fuel IH]; intros b; simpl;
    destruct (inRange versionRange b); try done;
    destruct (skipsIntoRange versionRange ch b); try done;
    destruct (Bundles ch !! Replaces b); done.
Qed.

(** The first loop leaves [cur] at the head or one step below it. *)
Lemma findHead_ret fuel cur head cur' :
  findHead versionRange ch fuel cur = Ret (head, cur') →
  ∃ n, steps ch n head = cur'.
Proof.
  revert cur. induction fuel as [|fuel IH]; intros cur; simpl;
    (destruct cur as [b|]; [|intros [= <- <-]; by exists 0]);
    (destruct (inRange versionRange b); [intros [= <- <-]; by exists 0|]);
    (destruct (skipsIntoRange versionRange ch b);
     [intros [= <- <-]; by exists 1|]); [done | apply IH].
Qed.

Lemma findHead_no_nil fuel cur :
  findHead versionRange ch fuel cur ≠ NilDeref.
Proof.
  revert cur. induction fuel as [|fuel IH]; intros cur; simpl;
    destruct cur as [b|]; try done;
    destruct (inRange versionRange b); try done;
    destruct (skipsIntoRange versionRange ch b); done.
Qed.

(** The second loop stops on the chain below [cur], or at nil. *)
Lemma findTail_ret fuel cur tail :
  findTail versionRange ch fuel cur = Ret tail →
  ∃ n, steps ch n cur = tail.
Proof.
  revert cur. induction fuel as [|fuel IH]; intros cur;
    (destruct cur as [b|]; [|simpl; intros [= <-]; by exists 0]);
    cbn [findTail].
  - destruct (isOrContainsBundleInVersionRange versionRange ch 0 b)
      as [| |[]]; cbn [obind]; try done. intros [= <-]. by exists 0.
  - destruct (isOrContainsBundleInVersionRange versionRange ch (S fuel) b)
      as [| |[]]; cbn [obind]; try done.
    + intros [n Hn]%IH. by exists (S n).
    + intros [= <-]. by exists 0.
Qed.

Lemma findTail_no_nil fuel cur :
  findTail versionRange ch fuel cur ≠ NilDeref.
Proof.
  revert cur. induction fuel as [|fuel IH]; intros cur;
    (destruct cur as [b|]; [|done]); cbn [findTail].
  - pose proof (isOrContains_no_nil 0 b).
    destruct (isOrContainsBundleInVersionRange versionRange ch 0 b)
      as [| |[]]; cbn [obind]; done.
  - pose proof (isOrContains_no_nil (S fuel) b).
    destruct (isOrContainsBundleInVersionRange versionRange ch (S fuel) b)
      as [| |[]]; cbn [obind]; done.
Qed.

(** The third loop never meets nil before it meets a tail that lies on
    the chain below its starting point. *)
Lemma collect_no_nil channelConfig fuel cur tail bundles warnings :
  (∃ n, steps ch n cur = tail) →
  collect versionRange ch channelConfig fuel cur tail bundles warnings
  ≠ NilDeref.
Proof.
  revert cur bundles warnings.
  induction fuel as [|fuel IH]; intros cur bundles warnings [n Hn]; simpl;
    (case_decide as Hcur; [done|]);
    (destruct cur as [b|];
     [|rewrite steps_None in Hn; by subst]); [done|].
  apply IH. destruct n as [|n]; [by subst|]. by exists n.
Qed.

(** On a trapped set the recursion and the first loop never return. *)
Lemma isOrContains_trapped l fuel b :
  trapped versionRange ch l = true → b ∈ l →
  isOrContainsBundleInVersionRange versionRange ch fuel b = Diverges.
Proof.
  intros Htr. unfold trapped in Htr. rewrite forallb_forall in Htr.
  revert b. induction fuel as [|fuel IH]; intros b Hb;
    pose proof (Htr b (proj1 (list_elem_of_In _ _) Hb)) as Hstep;
    apply andb_true_iff in Hstep as [Hr Hnext];
    apply negb_true_iff, reaches_false in Hr as [Hin Hsk];
    simpl; rewrite Hin, Hsk; unfold replaced in Hnext;
    destruct (Bundles ch !! Replaces b) as [b'|]; try done.
  apply IH. by apply bool_decide_eq_true in Hnext.
Qed.

Lemma findHead_trapped l fuel b :
  trapped versionRange ch l = true → b ∈ l →
  findHead versionRange ch fuel (Some b) = Diverges.
Proof.
  intros Htr. pose proof Htr as Htr'.
  unfold trapped in Htr. rewrite forallb_forall in Htr.
  revert b. induction fuel as [|fuel IH]; intros b Hb;
    pose proof (Htr b (proj1 (list_elem_of_In _ _) Hb)) as Hstep;
    apply andb_true_iff in Hstep as [Hr Hnext];
    apply negb_true_iff, reaches_false in Hr as [Hin Hsk];
    simpl; rewrite Hin, Hsk; [done|].
  destruct (replaced ch b) as [b'|]; [|done].
  apply IH. by apply bool_decide_eq_true in Hnext.
Qed.
End Safety.

(** ** More fuel changes no result *)

Section Fuel.
Context {sem : SemverLib}.
Variable versionRange : Constraints.
Variable ch : Channel.

Lemma isOrContains_mono fuel fuel' b o :
  isOrContainsBundleInVersionRange versionRange ch fuel b = o →
  o ≠ Diverges → fuel ≤ fuel' →
  isOrContainsBundleInVersionRange versionRange ch fuel' b = o.
Proof.
  revert fuel' b. induction fuel as [|fuel IH]; intros [|fuel'] b; simpl;
    destruct (inRange versionRange b); try done;
    destruct (skipsIntoRange versionRange ch b); try done;
    destruct (Bundles ch !! Replaces b); try done; try lia.
  all: try (by intros <- Hne).
  all: intros Ho Hne Hle; apply IH; [done | done | lia].
Qed.

Lemma findHead_mono fuel fuel' cur o :
  findHead versionRange ch fuel cur = o →
  o ≠ Diverges → fuel ≤ fuel' →
  findHead versionRange ch fuel' cur = o.
Proof.
  revert fuel' cur. induction fuel as [|fuel IH]; intros [|fuel'] cur; simpl;
    destruct cur as [b|]; try done;
    destruct (inRange versionRange b); try done;
    destruct (skipsIntoRange versionRange ch b); try done; try lia.
  all: try (by intros <- Hne).
  all: intros Ho Hne Hle; apply IH; [done | done | lia].
Qed.

Lemma findTail_mono fuel fuel' cur o :
  findTail versionRange ch fuel cur = o →
  o ≠ Diverges → fuel ≤ fuel' →
  findTail versionRange ch fuel' cur = o.
Proof.
  revert fuel' cur. induction fuel as [|fuel IH]; intros fuel' cur Ho Hne Hle;
    (destruct cur as [b|]; [|by destruct fuel']).
  - cbn [findTail] in Ho.
    destruct (isOrContainsBundleInVersionRange versionRange ch 0 b)
      as [| |r] eqn:Hr; cbn [obind] in Ho; [by subst| |].
    { by apply isOrContains_no_nil in Hr. }
    apply (isOrContains_mono _ fuel') in Hr; [|done|lia].
    destruct r; [by subst|].
    destruct fuel'; cbn [findTail]; by rewrite Hr.
  - destruct fuel' as [|fuel']; [lia|]. cbn [findTail] in Ho |- *.
    destruct (isOrContainsBundleInVersionRange versionRange ch (S fuel) b)
      as [| |r] eqn:Hr; cbn [obind] in Ho; [by subst| |].
    { by apply isOrContains_no_nil in Hr. }
    apply (isOrContains_mono _ (S fuel')) in Hr; [|done|lia].
    rewrite Hr. cbn [obind]. destruct r; [|done].
    apply IH; [done | done | lia].
Qed.

Lemma collect_mono channelConfig fuel fuel' cur tail bundles warnings o :
  collect versionRange ch channelConfig fuel cur tail bundles warnings = o →
  o ≠ Diverges → fuel ≤ fuel' →
  collect versionRange ch channelConfig fuel' cur tail bundles warnings = o.
Proof.
  revert fuel' cur bundles warnings.
  induction fuel as [|fuel IH]; intros [|fuel'] cur bundles warnings; simpl;
    case_decide; try done; destruct cur as [b|]; try done; try lia.
  all: try (by intros <- Hne).
  all: intros Ho Hne Hle; apply IH; [done | done | lia].
Qed.
End Fuel.

Section FilterBundlesSafety.
Context {sem : SemverLib} {reg : RegistryLib}.

Lemma filterBundles_no_nil fuel ch channelConfig :
  filterBundles fuel ch channelConfig ≠ NilDeref.
Proof.
  unfold filterBundles. destruct (Head ch) as [|first]; [done|].
  destruct (NewConstraint (VersionRange channelConfig)) as [|versionRange];
    [done|].
  pose proof (findHead_no_nil versionRange ch fuel (Some first)) as Hh.
  destruct (findHead versionRange ch fuel (Some first))
    as [| |[head cur]] eqn:Hhead; [done|done|]. cbn [obind].
  pose proof (findTail_no_nil versionRange ch fuel cur) as Ht.
  destruct (findTail versionRange ch fuel cur) as [| |tail] eqn:Htail;
    [done|done|]. cbn [obind].
  apply findHead_ret in Hhead as [n Hn].
  apply findTail_ret in Htail as [k Hk].
  pose proof (collect_no_nil versionRange ch channelConfig fuel head tail ∅ [])
    as Hc.
  destruct (collect versionRange ch channelConfig fuel head tail ∅ [])
    as [| |[bundles warnings]]; [done| |].
  - exfalso. apply Hc; [|done]. exists (n + k). subst.
    clear. revert head. induction n as [|n IH]; intros head; [done|].
    simpl. apply IH.
  - cbn [obind]. by case_decide.
Qed.

(** A result of [filterBundles] does not depend on the fuel that was
    enough to get it. *)
Lemma filterBundles_mono fuel fuel' ch channelConfig r :
  filterBundles fuel ch channelConfig = Ret r → fuel ≤ fuel' →
  filterBundles fuel' ch channelConfig = Ret r.
Proof.
  unfold filterBundles. destruct (Head ch) as [|first]; [done|].
  destruct (NewConstraint (VersionRange channelConfig)) as [|versionRange];
    [done|].
  intros Hr Hle.
  destruct (findHead versionRange ch fuel (Some first))
    as [| |[head cur]] eqn:Hhead; [done|done|].
  apply (findHead_mono _ _ _ fuel') in Hhead; [|done|done].
  rewrite Hhead. cbn [obind] in Hr |- *.
  destruct (findTail versionRange ch fuel cur) as [| |tail] eqn:Htail;
    [done|done|].
  apply (findTail_mono _ _ _ fuel') in Htail; [|done|done].
  rewrite Htail. cbn [obind] in Hr |- *.
  destruct (collect versionRange ch channelConfig fuel head tail ∅ [])
    as [| |[bundles warnings]] eqn:Hcol; [done|done|].
  apply (collect_mono _ _ _ _ fuel') in Hcol; [|done|done].
  by rewrite Hcol.
Qed.

Lemma filterBundles_trapped fuel ch channelConfig first versionRange l :
  Head ch = inr first →
  NewConstraint (VersionRange channelConfig) = inr versionRange →
  trapped versionRange ch l = true → first ∈ l →
  filterBundles fuel ch channelConfig = Diverges.
Proof.
  intros Hhead Hparse Htr Hin. unfold filterBundles.
  rewrite Hhead, Hparse. by rewrite (findHead_trapped _ _ l).
Qed.
End FilterBundlesSafety.

(** ** Deleting by name *)

Section RangeDelete.
Context {V : Type} (name : V → string) (keep : gset string).

Local Abbreviation step :=
  (fun (acc : gmap string V) '(k, v) =>
     match acc !! k with
     | None => acc
     | Some _ => if decide (name v ∈ keep) then acc else delete (name v) acc
     end).

Lemma rangeDelete_subseteq (m : gmap string V) : rangeDelete name keep m ⊆ m.
Proof.
  unfold rangeDelete. generalize (map_to_list m) as l. intros l.
  assert (∀ acc : gmap string V, acc ⊆ m → foldl step acc l ⊆ m) as Hgen.
  { induction l as [|[k v] l IH]; intros acc Hacc; simpl; [done|].
    apply IH. destruct (acc !! k); [|done]. case_decide; [done|].
    etrans; [apply delete_subseteq | done]. }
  by apply Hgen.
Qed.

Lemma rangeDelete_fold (l : list (string * V)) (acc : gmap string V) k :
  (∀ k' v, (k', v) ∈ l → name v = k') →
  foldl step acc l !! k
  = if decide (k ∈ l.*1 ∧ k ∉ keep) then None else acc !! k.
Proof.
  revert acc. induction l as [|[k0 v0] l IH]; intros acc Hl.
  { cbn [foldl]. rewrite decide_False; [done|].
    intros [Hk _]. by apply elem_of_nil in Hk. }
  cbn [foldl]. rewrite fmap_cons. cbn [fst].
  rewrite IH by (intros; apply Hl; by right).
  assert (name v0 = k0) as Hname by (apply Hl; by left).
  destruct (decide (k ∈ l.*1 ∧ k ∉ keep)) as [[Hk Hkeep]|Hnot].
  { rewrite (decide_True (P := k ∈ k0 :: l.*1 ∧ k ∉ keep)); [done|].
    split; [by right | done]. }
  destruct (decide (k = k0 ∧ k ∉ keep)) as [[-> Hkeep]|Hne].
  - rewrite (decide_True (P := k0 ∈ k0 :: l.*1 ∧ k0 ∉ keep))
      by (split; [by left | done]).
    destruct (acc !! k0) eqn:Hacc; [|done].
    rewrite Hname. rewrite decide_False by done. apply lookup_delete_eq.
  - rewrite (decide_False (P := k ∈ k0 :: l.*1 ∧ k ∉ keep)).
    2:{ intros [[->|Hk]%elem_of_cons Hkeep]; [by apply Hne | by apply Hnot]. }
    destruct (acc !! k0) eqn:Hacc; [|done]. rewrite Hname.
    case_decide as Hk0; [done|]. apply lookup_delete_ne.
    intros ->. by apply Hne.
Qed.

(** On a map keyed by name the loop keeps exactly the entries whose
    name is in [keep]. *)
Lemma rangeDelete_lookup (m : gmap string V) k :
  keyedBy name m →
  rangeDelete name keep m !! k = if decide (k ∈ keep) then m !! k else None.
Proof.
  intros Hkeyed. unfold rangeDelete. rewrite rangeDelete_fold.
  2:{ intros k' v Hin. apply Hkeyed. by apply elem_of_map_to_list. }
  destruct (decide (k ∈ keep)) as [Hk|Hk].
  - rewrite decide_False; [done|]. by intros [_ ?].
  - destruct (m !! k) as [v|] eqn:Hm.
    + rewrite decide_True; [done|]. split; [|done].
      apply list_elem_of_fmap. exists (k, v). split; [done|].
      by apply elem_of_map_to_list.
    + by case_decide.
Qed.
End RangeDelete.

Lemma filterPackages_lookup (m : Model) ps k :
  keyedBy PkgName m →
  filterPackages m ps !! k
  = if decide (k ∈ packageNames ps) then m !! k else None.
Proof. intros Hm. unfold filterPackages. by apply rangeDelete_lookup. Qed.

(** ** Messages *)

Lemma append_assoc (s t u : string) : (s +:+ t) +:+ u = s +:+ t +:+ u.
Proof.
  induction s as [|a s IH]; [reflexivity|].
  change (String a ((s +:+ t) +:+ u) = String a (s +:+ t +:+ u)). by f_equal.
Qed.

Lemma append_nil_r (s : string) : s +:+ "" = s.
Proof.
  induction s as [|a s IH]; [reflexivity|].
  change (String a (s +:+ "") = String a s). by f_equal.
Qed.

Lemma includes_here s post : includes s (s +:+ post).
Proof. by exists "", post. Qed.

Lemma includes_after s pre t : includes s t → includes s (pre +:+ t).
Proof.
  intros (pre' & post & ->). exists (pre +:+ pre'), post.
  by rewrite append_assoc.
Qed.

Lemma includes_quote s : includes s (quote s).
Proof. by exists dquote, dquote. Qed.

Lemma includes_quote_app s rest : includes s (quote s +:+ rest).
Proof.
  exists dquote, (dquote +:+ rest). unfold quote.
  by rewrite !append_assoc.
Qed.

Lemma prefixb_app s post : prefixb s (s +:+ post) = true.
Proof.
  induction s as [|a s IH]; [reflexivity|].
  change (bool_decide (a = a) && prefixb s (s +:+ post) = true).
  by rewrite bool_decide_eq_true_2, IH.
Qed.

Lemma includes_includesb s t : includes s t → includesb s t = true.
Proof.
  intros (pre & post & ->). induction pre as [|a pre IH].
  - change ("" +:+ s +:+ post) with (s +:+ post).
    destruct (s +:+ post) eqn:Heq; simpl; rewrite <- Heq, prefixb_app; done.
  - change (String a pre +:+ s +:+ post) with (String a (pre +:+ s +:+ post)).
    cbn [includesb]. rewrite IH. apply orb_true_r.
Qed.

Create HintDb messages.
#[local] Hint Resolve includes_quote includes_quote_app includes_after
  : messages.

(** ** [filterChannels] and [filterV1] without range expressions *)

Lemma prunedFrom_refl p : prunedFrom p p.
Proof. by split. Qed.

Lemma prunedFrom_trans p1 p2 p3 :
  prunedFrom p1 p2 → prunedFrom p2 p3 → prunedFrom p1 p3.
Proof.
  intros [Hn1 Hc1] [Hn2 Hc2]. split; [congruence | by etrans].
Qed.

Lemma setDefaultChannel_pruned p pkgConfig err p' warnings :
  setDefaultChannel p pkgConfig = (err, p', warnings) → prunedFrom p' p.
Proof.
  unfold setDefaultChannel. intros Heq.
  repeat (case_decide || case_match); simplify_eq; by split.
Qed.

Lemma filterChannels_pruned p pkgConfig err p' warnings :
  filterChannels p pkgConfig = (err, p', warnings) → prunedFrom p' p.
Proof.
  unfold filterChannels.
  set (p1 := if decide (0 < length (PChannels pkgConfig)) then _ else p).
  assert (prunedFrom p1 p) as Hp1.
  { subst p1. case_decide; [|apply prunedFrom_refl].
    split; [done|]. apply rangeDelete_subseteq. }
  destruct (setDefaultChannel p1 pkgConfig) as [[e p2] ws] eqn:Hset.
  apply setDefaultChannel_pruned in Hset.
  destruct e; intros [= <- <- <-]; by eapply prunedFrom_trans.
Qed.

Lemma prunedModel_refl (m : Model) : prunedModel m m.
Proof. split; [done|]. intros n p Hn. exists p. split; [done | apply prunedFrom_refl]. Qed.

Lemma prunedModel_insert (m' m : Model) n p p' :
  prunedModel m' m → m' !! n = Some p → prunedFrom p' p →
  prunedModel (<[n := p']> m') m.
Proof.
  intros [Hdom Hall] Hn Hp. split.
  - rewrite <- Hdom. apply dom_insert_lookup_L. eauto.
  - intros k q. rewrite lookup_insert. case_decide as Hk.
    + subst k. intros [= <-]. destruct (Hall n p Hn) as (p0 & Hp0 & Hpp0).
      exists p0. split; [done | by eapply prunedFrom_trans].
    + apply Hall.
Qed.

Section FilterV1Facts.
Context {sem : SemverLib} {reg : RegistryLib}.

(** Without range expressions the channel loop only warns. *)
Lemma filterV1_channels_norange fuel pName pkgModel cs :
  (∀ c, c ∈ cs → VersionRange c = "") →
  ∃ warnings,
    filterV1_channels fuel pName pkgModel cs = Ret (None, pkgModel, warnings).
Proof.
  induction cs as [|c cs IH]; intros Hcs; simpl; [by exists []|].
  destruct IH as [ws IH]; [intros; apply Hcs; by right|].
  destruct (Channels pkgModel !! CName c).
  - rewrite decide_False; [by exists ws|].
    intros Hne. apply Hne, Hcs. by left.
  - rewrite IH. simpl. eauto.
Qed.

Lemma filterV1_packages_norange fuel (m0 : Model) ps :
  (∀ p c, p ∈ ps → c ∈ PChannels p → VersionRange c = "") →
  ∀ m : Model, prunedModel m m0 →
  ∃ err m' warnings,
    filterV1_packages fuel m ps = Ret (err, m', warnings)
    ∧ prunedModel m' m0.
Proof.
  induction ps as [|p ps IH]; intros Hps m Hm; simpl.
  { by exists None, m, []. }
  assert (∀ p' c, p' ∈ ps → c ∈ PChannels p' → VersionRange c = "") as Hps'.
  { intros p' c Hp'. apply Hps. by right. }
  destruct (m !! PName p) as [pkgModel|] eqn:Hlook.
  2:{ destruct (IH Hps' m Hm) as (err & m' & ws & -> & Hm'). simpl. eauto 6. }
  destruct (filterChannels pkgModel p) as [[e pkgModel1] ws1] eqn:Hfc.
  pose proof (filterChannels_pruned _ _ _ _ _ Hfc) as Hpr.
  destruct e as [e|].
  { eexists _, _, _. split; [done|]. by eapply prunedModel_insert. }
  destruct (filterV1_channels_norange fuel (PName p) pkgModel1 (PChannels p))
    as [ws2 ->]; [intros c; apply Hps; by left|].
  cbn [obind].
  destruct (IH Hps' (<[PName p := pkgModel1]> m)) as (err & m' & ws3 & -> & Hm').
  { by eapply prunedModel_insert. }
  simpl. eauto 6.
Qed.

(** With no channel list and no default-channel override the package
    loop changes nothing and is silent. *)
Lemma filterV1_packages_untouched fuel (m : Model) ps :
  (∀ p, p ∈ ps → PChannels p = [] ∧ PDefaultChannel p = "") →
  (∀ p, p ∈ ps → ∃ pkgModel, m !! PName p = Some pkgModel
                   ∧ is_Some (Channels pkgModel !! DefaultChannel pkgModel)) →
  filterV1_packages fuel m ps = Ret (None, m, []).
Proof.
  induction ps as [|p ps IH]; intros Hps Hm; simpl; [done|].
  destruct (Hm p) as (pkgModel & Hlook & Hdef); [by left|]. rewrite Hlook.
  destruct (Hps p) as [Hcs Hov]; [by left|].
  unfold filterChannels, setDefaultChannel. rewrite Hcs, Hov. simpl.
  rewrite bool_decide_eq_true_2 by done. simpl.
  rewrite insert_id by done.
  rewrite IH; [done | |]; intros; [apply Hps | apply Hm]; by right.
Qed.
End FilterV1Facts.

(** ** The retained bundles *)

Import Scenario.

Lemma segment_unreached {sem : SemverLib} versionRange ch l :
  existsb (reaches versionRange ch) l = false → segment versionRange ch l = [].
Proof.
  intros Hl. unfold segment.
  replace (fromFirst versionRange ch l) with (@nil Bundle); [done|].
  induction l as [|b l IH]; [done|]. simpl in *.
  apply orb_false_elim in Hl as [-> Hl]. by apply IH.
Qed.

(** C1, as amended.  On a channel whose head resolves and whose
    replaces-chain from the head is [l], filtering with a range that parses
    returns, and when it succeeds every bundle of the new bundle map is in
    the range, or lies on the chain between the newest and the oldest
    bundle that is in the range or has a resolvable skip in the range
    (both included), or is an in-range skip of such a chain bundle.  For
    the chain v1.0.0 <- v1.1.0 <- v2.0.0 and the range [>=1.1.0] the result
    is exactly v1.1.0 and v2.0.0, without a warning. *)
Theorem filterBundles_retained :
  (∀ (sem : SemverLib) (reg : RegistryLib) fuel ch channelConfig first versionRange l,
     Head ch = inr first →
     NewConstraint (VersionRange channelConfig) = inr versionRange →
     chain ch (Some first) l →
     length l ≤ fuel →
     ∃ err ch' warnings,
       filterBundles fuel ch channelConfig = Ret (err, ch', warnings)
       ∧ (err = None →
          ∀ k b, Bundles ch' !! k = Some b →
                 inRange versionRange b = true
                 ∨ spanned versionRange ch l b
                 ∨ ∃ c, spanned versionRange ch l c
                        ∧ skipTargetOf versionRange ch c b))
  ∧ filterBundles 3 stable (mkV1Channel "stable" ">=1.1.0")
    = Ret (None, channelOf "foo" "stable" [v110; v200], []).
Proof.
  split; [|by vm_compute].
  intros ? ? fuel ch channelConfig first versionRange l Hhead Hparse Hc Hlen.
  rewrite (filterBundles_chain _ _ _ _ _ _ Hhead Hparse Hc Hlen).
  destruct (segment versionRange ch l) as [|h t] eqn:Hseg.
  { eexists _, _, _. split; [done|]. done. }
  eexists _, _, _. split; [done|]. intros _ k b Hk. cbn [Bundles] in Hk.
  rewrite <- Hseg in Hk.
  apply collected_lookup in Hk as [Hk|[Hb|(c & Hc' & Hs)]].
  - by rewrite lookup_empty in Hk.
  - right. left. by apply elem_of_segment.
  - right. right. exists c. split; [by apply elem_of_segment | done].
Qed.

(** The general statement on Scenario E, whose head is found in the range. *)
Lemma filterBundles_retained_witness :
  ∃ err ch' warnings,
    filterBundles 3 scenarioE rangeE = Ret (err, ch', warnings)
    ∧ (err = None →
       ∀ k b, Bundles ch' !! k = Some b →
              inRange parsedE b = true
              ∨ spanned parsedE scenarioE [e200; e150; e120] b
              ∨ ∃ c, spanned parsedE scenarioE [e200; e150; e120] c
                     ∧ skipTargetOf parsedE scenarioE c b).
Proof.
  apply (proj1 filterBundles_retained semver registry 3 scenarioE rangeE e200).
  - reflexivity.
  - reflexivity.
  - repeat split; reflexivity.
  - simpl. lia.
Defined.

(** C1, the claim as stated fails.  In the channel where v2.0.0 (head)
    replaces v1.5.0 and skips v1.2.0, filtered with [<1.5.0], the head is
    kept although it is not in the range, no in-range bundle lies on the
    chain above it, and it is nobody's skip. *)
Lemma filterBundles_retained_counterexample :
  Head deadEnd = inr e200
  ∧ chain deadEnd (Some e200) [e200; d150]
  ∧ filterBundles 2 deadEnd rangeOld
    = Ret (None, channelOf "foo" "stable" [e200; e120],
           [WarnOutsideRange "foo.v2.0.0" "2.0.0" "stable" "foo" "<1.5.0"])
  ∧ Bundles (channelOf "foo" "stable" [e200; e120]) !! "foo.v2.0.0" = Some e200
  ∧ ¬ retainedAsClaimed parsedOld deadEnd [e200; d150]
        (Bundles (channelOf "foo" "stable" [e200; e120])) e200.
Proof.
  split; [reflexivity|]. split; [by repeat split|].
  split; [by vm_compute|]. split; [by vm_compute|].
  intros [Hin|[(l1 & l2 & Hl & Habove & _)|(k & c & _ & skip & _ & _ & Hin)]].
  - by vm_compute in Hin.
  - destruct l1 as [|x l1]; [done|]. injection Hl as <- Hl.
    destruct l1 as [|y l1]; [done|]. injection Hl as <- Hl.
    by destruct l1.
  - by vm_compute in Hin.
Qed.

(** ** Default-channel resolution *)

(** C2.  [setDefaultChannel], which runs on the package after its channels
    were pruned, resolves the default channel in this order: an override
    that names a channel of the package makes that channel the default; an
    override that names none keeps the original default with a warning when
    the original is still a channel of the package, and fails otherwise;
    without an override a missing original default is an error and a
    present one is left unchanged. *)
Theorem setDefaultChannel_priority (p : Package) (pkgConfig : v1Package) :
  (PDefaultChannel pkgConfig ≠ "" →
   ∀ c, Channels p !! PDefaultChannel pkgConfig = Some c →
        setDefaultChannel p pkgConfig
        = (None, mkPackage (PkgName p) (ChName c) (Channels p), []))
  ∧ (PDefaultChannel pkgConfig ≠ "" →
     Channels p !! PDefaultChannel pkgConfig = None →
     is_Some (Channels p !! DefaultChannel p) →
     setDefaultChannel p pkgConfig
     = (None, p, [WarnOverrideIgnored (PDefaultChannel pkgConfig)]))
  ∧ (PDefaultChannel pkgConfig ≠ "" →
     Channels p !! PDefaultChannel pkgConfig = None →
     Channels p !! DefaultChannel p = None →
     setDefaultChannel p pkgConfig
     = (Some (ErrOverrideAndDefaultMissing (PDefaultChannel pkgConfig)
                (DefaultChannel p)), p, []))
  ∧ (PDefaultChannel pkgConfig = "" →
     Channels p !! DefaultChannel p = None →
     setDefaultChannel p pkgConfig
     = (Some (ErrDefaultFilteredOut (DefaultChannel p)), p, []))
  ∧ (PDefaultChannel pkgConfig = "" →
     is_Some (Channels p !! DefaultChannel p) →
     setDefaultChannel p pkgConfig = (None, p, [])).
Proof.
  unfold setDefaultChannel. repeat split.
  - intros Hov c Hc. by rewrite decide_True, Hc.
  - intros Hov Hc Hdef. rewrite decide_True, Hc by done.
    by rewrite bool_decide_eq_true_2.
  - intros Hov Hc Hdef. rewrite decide_True, Hc by done.
    rewrite bool_decide_eq_false_2; [done|]. rewrite Hdef. by intros [? ?].
  - intros Hov Hdef. rewrite decide_False by (by intros ?).
    rewrite bool_decide_eq_false_2; [done|]. rewrite Hdef. by intros [? ?].
  - intros Hov Hdef. rewrite decide_False by (by intros ?).
    by rewrite bool_decide_eq_true_2.
Qed.

(** The five cases on the packages of the catalog. *)
Lemma setDefaultChannel_priority_witness :
  setDefaultChannel pkgFoo (mkV1Package "foo" "alpha" [])
  = (None, mkPackage "foo" "alpha" (Channels pkgFoo), [])
  ∧ setDefaultChannel pkgFoo (mkV1Package "foo" "beta" [])
    = (None, pkgFoo, [WarnOverrideIgnored "beta"])
  ∧ setDefaultChannel pkgOrphan (mkV1Package "foo" "beta" [])
    = (Some (ErrOverrideAndDefaultMissing "beta" "stable"), pkgOrphan, [])
  ∧ setDefaultChannel pkgOrphan (mkV1Package "foo" "" [])
    = (Some (ErrDefaultFilteredOut "stable"), pkgOrphan, [])
  ∧ setDefaultChannel pkgFoo (mkV1Package "foo" "" []) = (None, pkgFoo, []).
Proof.
  split; [|split; [|split; [|split]]].
  - apply (proj1 (setDefaultChannel_priority pkgFoo (mkV1Package "foo" "alpha" []))
             ltac:(done) alpha).
    reflexivity.
  - apply (proj1 (proj2 (setDefaultChannel_priority pkgFoo
                           (mkV1Package "foo" "beta" [])))).
    + done.
    + reflexivity.
    + by exists stable.
  - apply (proj1 (proj2 (proj2 (setDefaultChannel_priority pkgOrphan
                                  (mkV1Package "foo" "beta" []))))).
    + done.
    + reflexivity.
    + reflexivity.
  - apply (proj1 (proj2 (proj2 (proj2 (setDefaultChannel_priority pkgOrphan
                                         (mkV1Package "foo" "" [])))))).
    + reflexivity.
    + reflexivity.
  - apply (proj2 (proj2 (proj2 (proj2 (setDefaultChannel_priority pkgFoo
                                         (mkV1Package "foo" "" [])))))).
    + reflexivity.
    + by exists stable.
Defined.

(** ** An empty collection *)

Lemma includes_NoBundlesInRange ch pkg range :
  includes pkg (renderError (ErrNoBundlesInRange ch pkg range))
  ∧ includes ch (renderError (ErrNoBundlesInRange ch pkg range))
  ∧ includes range (renderError (ErrNoBundlesInRange ch pkg range)).
Proof. cbn [renderError]. repeat split; eauto 10 with messages. Qed.

(** C3.  On a channel whose head resolves, filtered with a range that
    parses, when no bundle of the replaces-chain from the head is in the
    range or has a resolvable skip in the range, [filterBundles] fails with
    the no-bundles error; the message includes the package name, the
    channel name and the range expression; the channel keeps its bundle
    map and nothing is warned.  Scenario C is an instance: the chain
    v1.0.0 <- v1.1.0 <- v2.0.0 with [>=2.0.0 <2.0.0]. *)
Theorem filterBundles_no_bundles :
  (∀ (sem : SemverLib) (reg : RegistryLib) fuel ch channelConfig first versionRange l,
     Head ch = inr first →
     NewConstraint (VersionRange channelConfig) = inr versionRange →
     chain ch (Some first) l →
     existsb (reaches versionRange ch) l = false →
     length l ≤ fuel →
     let err := ErrNoBundlesInRange (ChName ch) (ChPackage ch)
                  (VersionRange channelConfig) in
     filterBundles fuel ch channelConfig = Ret (Some err, ch, [])
     ∧ includes (ChPackage ch) (renderError err)
     ∧ includes (ChName ch) (renderError err)
     ∧ includes (VersionRange channelConfig) (renderError err))
  ∧ filterBundles 3 stable rangeNone
    = Ret (Some (ErrNoBundlesInRange "stable" "foo" ">=2.0.0 <2.0.0"), stable, []).
Proof.
  split; [|by vm_compute].
  intros ? ? fuel ch channelConfig first versionRange l Hhead Hparse Hc Hno Hlen.
  split; [|apply includes_NoBundlesInRange].
  rewrite (filterBundles_chain _ _ _ _ _ _ Hhead Hparse Hc Hlen).
  by rewrite segment_unreached.
Qed.

(** The general statement on Scenario C. *)
Lemma filterBundles_no_bundles_witness :
  let err := ErrNoBundlesInRange "stable" "foo" ">=2.0.0 <2.0.0" in
  filterBundles 3 stable rangeNone = Ret (Some err, stable, [])
  ∧ includes "foo" (renderError err)
  ∧ includes "stable" (renderError err)
  ∧ includes ">=2.0.0 <2.0.0" (renderError err).
Proof.
  apply (proj1 filterBundles_no_bundles semver registry 3 stable rangeNone v200
           parsedNone [v200; v110; v100]).
  - reflexivity.
  - reflexivity.
  - repeat split; reflexivity.
  - reflexivity.
  - simpl. lia.
Defined.

(** ** Warnings *)

(** C4.  On a channel whose head resolves and whose replaces-chain from
    the head is [l], [filterBundles] warns once for each bundle of the
    segment (the chain from the retained head down to the tail boundary,
    which is left out) that is not itself in the range, in chain order, and
    about nothing else: a skip added because it is in the range brings no
    warning.  Scenario E, with v1.5.0 on the chain between the head v2.0.0
    and its in-range skip v1.2.0: v1.2.0 is kept without a warning and the
    one warning is about v1.5.0. *)
Theorem filterBundles_warnings :
  (∀ (sem : SemverLib) (reg : RegistryLib) fuel ch channelConfig first versionRange l,
     Head ch = inr first →
     NewConstraint (VersionRange channelConfig) = inr versionRange →
     chain ch (Some first) l →
     length l ≤ fuel →
     ∃ err ch',
       filterBundles fuel ch channelConfig
       = Ret (err, ch',
              outsideRangeWarning ch channelConfig
                <$> filter (fun b => inRange versionRange b = false)
                           (segment versionRange ch l))
       ∧ NoDup (segment versionRange ch l)
       ∧ ∀ b, b ∈ segment versionRange ch l ↔ spanned versionRange ch l b)
  ∧ filterBundles 3 scenarioE rangeE
    = Ret (None, channelOf "foo" "stable" [e200; e150; e120],
           [WarnOutsideRange "foo.v1.5.0" "1.5.0" "stable" "foo"
              ">=2.0.0 || <1.5.0"]).
Proof.
  split; [|by vm_compute].
  intros ? ? fuel ch channelConfig first versionRange l Hhead Hparse Hc Hlen.
  rewrite (filterBundles_chain _ _ _ _ _ _ Hhead Hparse Hc Hlen).
  assert (NoDup (segment versionRange ch l)) as Hnd.
  { destruct (segment_split versionRange ch l) as (l0 & Hl & _).
    apply chain_NoDup in Hc. rewrite Hl in Hc.
    apply NoDup_app in Hc as (_ & _ & Hc). by apply NoDup_app in Hc as (? & _). }
  destruct (segment versionRange ch l) as [|h t] eqn:Hseg.
  - eexists _, _. split; [done|]. split; [done|].
    intros b. rewrite <- Hseg. apply elem_of_segment.
  - eexists _, _. split; [done|]. split; [done|].
    intros b. rewrite <- Hseg. apply elem_of_segment.
Qed.

(** The general statement on Scenario E. *)
Lemma filterBundles_warnings_witness :
  ∃ err ch',
    filterBundles 3 scenarioE rangeE
    = Ret (err, ch',
           outsideRangeWarning scenarioE rangeE
             <$> filter (fun b => inRange parsedE b = false)
                        (segment parsedE scenarioE [e200; e150; e120]))
    ∧ NoDup (segment parsedE scenarioE [e200; e150; e120])
    ∧ ∀ b, b ∈ segment parsedE scenarioE [e200; e150; e120]
           ↔ spanned parsedE scenarioE [e200; e150; e120] b.
Proof.
  apply (proj1 filterBundles_warnings semver registry 3 scenarioE rangeE e200).
  - reflexivity.
  - reflexivity.
  - repeat split; reflexivity.
  - simpl. lia.
Defined.

(** When v1.5.0 replaces nothing, v1.2.0 is off the chain: v1.5.0 is the
    tail boundary, it is dropped and nothing is warned. *)
Remark deadEnd_drops_v150 :
  filterBundles 3 deadEnd rangeE
  = Ret (None, channelOf "foo" "stable" [e200; e120], []).
Proof. by vm_compute. Qed.

(** ** Termination *)

(** C5, as amended.  The recursive check returns on every bundle whose
    replaces-chain is finite, with the answer "some bundle of the chain is
    in the range or skips into it"; the source has no guard for other
    inputs: on a set of bundles that the replaces-chain cannot leave and
    that never reaches the range, the check does not return for any amount
    of fuel, and neither does [filterBundles] on a channel whose head is in
    such a set (no error is produced). *)
Theorem isOrContains_terminates_on_chains :
  (∀ (sem : SemverLib) versionRange ch fuel b l,
     chain ch (Some b) l →
     length l ≤ fuel →
     isOrContainsBundleInVersionRange versionRange ch fuel b
     = Ret (existsb (reaches versionRange ch) l))
  ∧ (∀ (sem : SemverLib) (reg : RegistryLib) versionRange ch l b,
       trapped versionRange ch l = true →
       b ∈ l →
       ∀ fuel,
         isOrContainsBundleInVersionRange versionRange ch fuel b = Diverges
         ∧ ∀ channelConfig,
             Head ch = inr b →
             NewConstraint (VersionRange channelConfig) = inr versionRange →
             filterBundles fuel ch channelConfig = Diverges).
Proof.
  split.
  - intros ? versionRange ch fuel b l. apply isOrContains_chain.
  - intros ? ? versionRange ch l b Htr Hb fuel. split.
    + by apply (isOrContains_trapped _ _ l).
    + intros channelConfig Hhead Hparse.
      by apply (filterBundles_trapped _ _ _ _ _ l Hhead Hparse).
Qed.

(** Both halves: the finite chain of Scenario C and the cyclic channel. *)
Lemma isOrContains_terminates_on_chains_witness :
  isOrContainsBundleInVersionRange parsedNone stable 3 v200
  = Ret (existsb (reaches parsedNone stable) [v200; v110; v100])
  ∧ ∀ fuel,
      isOrContainsBundleInVersionRange parsedNone cyclic fuel c300 = Diverges
      ∧ ∀ channelConfig,
          Head cyclic = inr c300 →
          NewConstraint (VersionRange channelConfig) = inr parsedNone →
          filterBundles fuel cyclic channelConfig = Diverges.
Proof.
  split.
  - apply (proj1 isOrContains_terminates_on_chains semver parsedNone stable 3 v200).
    + repeat split; reflexivity.
    + simpl. lia.
  - apply (proj2 isOrContains_terminates_on_chains semver registry parsedNone
             cyclic [c300; c200; c100] c300).
    + reflexivity.
    + apply elem_of_cons. by left.
Defined.

(** C5, the claim as stated fails.  The channel
    v3.0.0 -> v2.0.0 -> v1.0.0 -> v2.0.0 has one head; with a range that no
    bundle satisfies, neither the recursive check on the head nor
    [filterBundles] returns anything, an error included. *)
Lemma isOrContains_cycle_counterexample :
  Head cyclic = inr c300
  ∧ NewConstraint (VersionRange rangeNone) = inr parsedNone
  ∧ ¬ (∃ fuel r,
         isOrContainsBundleInVersionRange parsedNone cyclic fuel c300 = Ret r)
  ∧ ¬ (∃ fuel r, filterBundles fuel cyclic rangeNone = Ret r).
Proof.
  assert (trapped parsedNone cyclic [c300; c200; c100] = true) as Htr
    by reflexivity.
  assert (c300 ∈ [c300; c200; c100]) as Hin by (apply elem_of_cons; by left).
  split; [reflexivity|]. split; [reflexivity|]. split.
  - intros (fuel & r & Hr).
    by rewrite (isOrContains_trapped _ _ _ fuel c300 Htr Hin) in Hr.
  - intros (fuel & r & Hr).
    rewrite (filterBundles_trapped (sem := semver) fuel cyclic rangeNone c300
               parsedNone [c300; c200; c100]) in Hr; done.
Qed.

(** ** Nil pointers *)

(** C10.  When no bundle of the replaces-chain from the head is in the
    range or skips into it, the first loop ends with [head] and [cur] nil,
    the second loop leaves [tail] nil, the third loop returns before its
    body runs (even without fuel), and [filterBundles] returns the
    no-bundles error.  And on every input whatever, [filterBundles] never
    dereferences a nil bundle. *)
Theorem filterBundles_empty_is_nil_safe :
  (∀ (sem : SemverLib) (reg : RegistryLib) fuel ch channelConfig first versionRange l,
     Head ch = inr first →
     NewConstraint (VersionRange channelConfig) = inr versionRange →
     chain ch (Some first) l →
     existsb (reaches versionRange ch) l = false →
     length l ≤ fuel →
     findHead versionRange ch fuel (Some first) = Ret (None, None)
     ∧ findTail versionRange ch fuel None = Ret None
     ∧ (∀ n, collect versionRange ch channelConfig n None None ∅ []
             = Ret (∅, []))
     ∧ filterBundles fuel ch channelConfig
       = Ret (Some (ErrNoBundlesInRange (ChName ch) (ChPackage ch)
                      (VersionRange channelConfig)), ch, []))
  ∧ (∀ (sem : SemverLib) (reg : RegistryLib) fuel ch channelConfig,
       filterBundles fuel ch channelConfig ≠ NilDeref).
Proof.
  split; [|intros; apply filterBundles_no_nil].
  intros ? ? fuel ch channelConfig first versionRange l Hhead Hparse Hc Hno Hlen.
  split; [|split; [|split]].
  - rewrite (findHead_chain _ _ _ _ l Hc Hlen).
    pose proof (segment_unreached versionRange ch l Hno) as Hseg.
    unfold segment in Hseg.
    destruct (fromFirst versionRange ch l) as [|h t] eqn:Hff; [done|].
    apply fromFirst_cons in Hff. cbn [upToLast] in Hseg. simpl existsb in Hseg.
    by rewrite Hff in Hseg.
  - by destruct fuel.
  - by intros [|n].
  - rewrite (filterBundles_chain _ _ _ _ _ _ Hhead Hparse Hc Hlen).
    by rewrite segment_unreached.
Qed.

(** The first half on Scenario C. *)
Lemma filterBundles_empty_is_nil_safe_witness :
  findHead parsedNone stable 3 (Some v200) = Ret (None, None)
  ∧ findTail parsedNone stable 3 None = Ret None
  ∧ (∀ n, collect parsedNone stable rangeNone n None None ∅ [] = Ret (∅, []))
  ∧ filterBundles 3 stable rangeNone
    = Ret (Some (ErrNoBundlesInRange (ChName stable) (ChPackage stable)
                   (VersionRange rangeNone)), stable, []).
Proof.
  apply (proj1 filterBundles_empty_is_nil_safe semver registry 3 stable rangeNone
           v200 parsedNone [v200; v110; v100]).
  - reflexivity.
  - reflexivity.
  - repeat split; reflexivity.
  - reflexivity.
  - simpl. lia.
Defined.

(** ** Filtering without range expressions *)

Lemma filterPackages_keepNamed (m : Model) ps :
  keyedBy PkgName m → filterPackages m ps = keepNamed (packageNames ps) m.
Proof.
  intros Hm. apply map_eq. intros k. rewrite filterPackages_lookup by done.
  unfold keepNamed. symmetry. case_decide as Hk.
  - destruct (m !! k) as [p|] eqn:Hlook.
    + by apply map_lookup_filter_Some.
    + apply map_lookup_filter_None. left. done.
  - apply map_lookup_filter_None. right. intros p _. done.
Qed.

Lemma keepNamed_dom (m : Model) ps :
  Forall (fun p => is_Some (m !! PName p)) ps →
  dom (keepNamed (packageNames ps) m) = packageNames ps.
Proof.
  intros Hps. apply set_eq. intros k. rewrite elem_of_dom. unfold keepNamed.
  split.
  - intros [p Hp]. by apply map_lookup_filter_Some in Hp as [_ ?].
  - intros Hk. pose proof Hk as Hk'. unfold packageNames in Hk'.
    apply elem_of_list_to_set, list_elem_of_fmap in Hk' as (p & -> & Hp).
    rewrite Forall_forall in Hps. destruct (Hps p Hp) as [pkg Hpkg].
    exists pkg. by apply map_lookup_filter_Some.
Qed.

(** C8, as amended.  When every package the configuration names is in the
    catalog and no channel entry has a range expression, [filterV1]
    returns.  If it succeeds, the resulting catalog holds exactly the
    packages the configuration names, each under its name and with a
    subset of its original channels, every surviving channel unchanged.
    It succeeds, silently, with each named package unchanged, when in
    addition no package entry lists channels or overrides the default
    channel, the default channel of every package is one of its channels
    and the validation accepts the result. *)
Theorem filterV1_without_ranges {sem : SemverLib} {reg : RegistryLib} fuel fbc
    configuration (m : Model) :
  ConvertToModel fbc = inr m →
  keyedBy PkgName m →
  Forall (fun p => is_Some (m !! PName p)) (Packages configuration) →
  Forall (fun p => Forall (fun c => VersionRange c = "") (PChannels p))
         (Packages configuration) →
  ∃ err fbc' warnings,
    filterV1 fuel fbc configuration = Ret (err, fbc', warnings)
    ∧ (err = None →
       ∃ m' : Model,
         fbc' = ConvertFromModel m'
         ∧ dom m' = packageNames (Packages configuration)
         ∧ ∀ n p', m' !! n = Some p' →
                   ∃ p, m !! n = Some p ∧ prunedFrom p' p)
    ∧ (Forall (fun p => PChannels p = [] ∧ PDefaultChannel p = "")
              (Packages configuration) →
       map_Forall (fun _ p => is_Some (Channels p !! DefaultChannel p)) m →
       Validate (keepNamed (packageNames (Packages configuration)) m) = None →
       err = None
       ∧ fbc' = ConvertFromModel
                  (keepNamed (packageNames (Packages configuration)) m)
       ∧ warnings = []).
Proof.
  intros Hconv Hkeyed Hpresent Hnorange.
  set (ps := Packages configuration) in *.
  pose proof (filterPackages_keepNamed m ps Hkeyed) as Hm1.
  pose proof (keepNamed_dom m ps Hpresent) as Hdom.
  set (m1 := keepNamed (packageNames ps) m) in *.
  assert (∀ n p, m1 !! n = Some p → m !! n = Some p) as Hsub.
  { intros n p Hn. by apply map_lookup_filter_Some in Hn as [? _]. }
  assert (Forall (fun p => PChannels p = [] ∧ PDefaultChannel p = "") ps →
          map_Forall (fun _ p => is_Some (Channels p !! DefaultChannel p)) m →
          filterV1_packages fuel m1 ps = Ret (None, m1, [])) as Hquiet.
  { intros Hplain Hdef. apply filterV1_packages_untouched.
    - by apply Forall_forall.
    - intros p Hp. rewrite Forall_forall in Hpresent.
      destruct (Hpresent p Hp) as [pkg Hpkg]. exists pkg. split; [|by eapply Hdef].
      apply map_lookup_filter_Some. split; [done|]. simpl.
      apply elem_of_list_to_set, list_elem_of_fmap. eauto. }
  destruct (filterV1_packages_norange fuel m1 ps) with (m := m1)
    as (err & m' & warnings & Hrun & [Hdom' Hpruned]).
  { intros p c Hp Hc. rewrite Forall_forall in Hnorange.
    specialize (Hnorange p Hp). rewrite Forall_forall in Hnorange. eauto. }
  { apply prunedModel_refl. }
  unfold filterV1. rewrite Hconv. fold ps. rewrite Hm1, Hrun. cbn [obind].
  destruct err as [e|].
  { eexists _, _, _. split; [done|]. split; [done|].
    intros Hplain Hdef _. by rewrite Hquiet in Hrun. }
  destruct (Validate m') as [e|] eqn:Hval.
  { eexists _, _, _. split; [done|]. split; [done|].
    intros Hplain Hdef Hok. rewrite Hquiet in Hrun by done.
    injection Hrun as <- _. congruence. }
  eexists _, _, _. split; [done|]. split.
  - intros _. exists m'. split; [done|]. split; [congruence|].
    intros n p' Hn. destruct (Hpruned n p' Hn) as (p & Hp & Hpp). eauto.
  - intros Hplain Hdef _. rewrite Hquiet in Hrun by done.
    by injection Hrun as <- <-.
Qed.

(** The statement on the catalog, keeping the package [foo] as it is. *)
Lemma filterV1_without_ranges_witness :
  ∃ err fbc' warnings,
    filterV1 0 catalog (configOf [mkV1Package "foo" "" []])
    = Ret (err, fbc', warnings)
    ∧ (err = None →
       ∃ m' : Model,
         fbc' = m'
         ∧ dom m' = packageNames [mkV1Package "foo" "" []]
         ∧ ∀ n p', m' !! n = Some p' →
                   ∃ p, catalog !! n = Some p ∧ prunedFrom p' p)
    ∧ (Forall (fun p => PChannels p = [] ∧ PDefaultChannel p = "")
              [mkV1Package "foo" "" []] →
       map_Forall (fun _ p => is_Some (Channels p !! DefaultChannel p)) catalog →
       validModel (keepNamed (packageNames [mkV1Package "foo" "" []]) catalog)
       = None →
       err = None
       ∧ fbc' = keepNamed (packageNames [mkV1Package "foo" "" []]) catalog
       ∧ warnings = []).
Proof.
  apply (filterV1_without_ranges (sem := semver) (reg := registry) 0 catalog
           (configOf [mkV1Package "foo" "" []]) catalog).
  - reflexivity.
  - apply (bool_decide_unpack _). by vm_compute.
  - apply (bool_decide_unpack _). by vm_compute.
  - apply (bool_decide_unpack _). by vm_compute.
Defined.

(** C8, the claim as stated fails.  Every package of the configuration is
    in the catalog and there is no range expression, yet: listing only
    the channel [alpha] of [foo], whose default channel is [stable], makes
    [filterV1] fail and leave the catalog as it was; listing only [stable]
    succeeds and [foo] loses its channel [alpha]. *)
Lemma filterV1_without_ranges_counterexample :
  is_Some (catalog !! "foo")
  ∧ filterV1 0 catalog
      (configOf [mkV1Package "foo" "" [mkV1Channel "alpha" ""]])
    = Ret (Some (ErrFilterChannels "foo"
                   (ErrDefaultChannelConfig (ErrDefaultFilteredOut "stable"))),
           catalog, [])
  ∧ filterV1 0 catalog
      (configOf [mkV1Package "foo" "" [mkV1Channel "stable" ""]])
    = Ret (None,
           {["foo" := mkPackage "foo" "stable" {["stable" := stable]}]}, [])
  ∧ mkPackage "foo" "stable" {["stable" := stable]} ≠ pkgFoo.
Proof.
  split; [by exists pkgFoo|]. split; [by vm_compute|]. split; [by vm_compute|].
  intros Heq. apply (f_equal (fun p => Channels p !! "alpha")) in Heq.
  by vm_compute in Heq.
Qed.

(** ** The empty configuration *)

(** C9.  With an empty list of packages, [filterPackages] removes every
    package of a catalog (whose packages are stored under their names, as
    the conversion to the model builds it), and [filterV1] returns the
    empty catalog when the validation accepts it. *)
Theorem filterV1_empty_configuration {sem : SemverLib} {reg : RegistryLib} fuel fbc
    configuration (m : Model) :
  ConvertToModel fbc = inr m →
  keyedBy PkgName m →
  Packages configuration = [] →
  Validate ∅ = None →
  filterPackages m (Packages configuration) = ∅
  ∧ filterV1 fuel fbc configuration = Ret (None, ConvertFromModel ∅, []).
Proof.
  intros Hconv Hkeyed Hnil Hval.
  assert (filterPackages m (Packages configuration) = ∅) as Hempty.
  { apply map_eq. intros k. rewrite filterPackages_lookup by done.
    rewrite Hnil, lookup_empty. by rewrite decide_False. }
  split; [done|]. unfold filterV1. rewrite Hconv, Hempty, Hnil. simpl.
  by rewrite Hval.
Qed.

(** The statement on the catalog. *)
Lemma filterV1_empty_configuration_witness :
  filterPackages catalog [] = ∅
  ∧ filterV1 0 catalog (configOf []) = Ret (None, ∅, []).
Proof.
  apply (filterV1_empty_configuration (sem := semver) (reg := registry) 0 catalog
           (configOf []) catalog).
  - reflexivity.
  - apply (bool_decide_unpack _). by vm_compute.
  - reflexivity.
  - reflexivity.
Defined.

(** ** The annotation of bundle-filtering errors *)

(** Whatever fails in [filterBundles], the channel loop wraps the error
    with the name of the channel entry; the package name is not used. *)
Lemma filterV1_channels_error {sem : SemverLib} {reg : RegistryLib} fuel pName pkgModel
    cs e pkgModel' warnings :
  filterV1_channels fuel pName pkgModel cs = Ret (Some e, pkgModel', warnings) →
  ∃ c inner, c ∈ cs ∧ e = ErrFilterBundles (CName c) inner.
Proof.
  revert pkgModel pkgModel' warnings.
  induction cs as [|c cs IH]; intros pkgModel pkgModel' warnings; simpl; [done|].
  destruct (Channels pkgModel !! CName c) as [ch|].
  - case_decide.
    + destruct (filterBundles fuel ch c) as [| |[[[inner|] ch'] ws]];
        cbn [obind]; try done.
      * intros [= <- _ _]. exists c, inner. split; [by left | done].
      * destruct (filterV1_channels fuel pName _ cs) as [| |[[e' p'] ws']] eqn:Hrec;
          cbn [obind]; try done.
        intros [= -> _ _]. apply IH in Hrec as (c' & inner & Hc' & ->).
        exists c', inner. split; [by right | done].
    + intros Hrec. apply IH in Hrec as (c' & inner & Hc' & ->).
      exists c', inner. split; [by right | done].
  - destruct (filterV1_channels fuel pName pkgModel cs)
      as [| |[[e' p'] ws']] eqn:Hrec; cbn [obind]; try done.
    intros [= -> _ _]. apply IH in Hrec as (c' & inner & Hc' & ->).
    exists c', inner. split; [by right | done].
Qed.

(** C6, at the failing input.  Filtering the channel [stable] of the
    package [foo] with a range that does not parse fails with an error
    whose annotation carries the channel name where the message says
    "package"; the package name [foo] occurs nowhere in the message. *)
Theorem filterV1_bundle_error_annotation :
  let configuration :=
    configOf [mkV1Package "foo" "" [mkV1Channel "stable" "not-a-range"]] in
  let e :=
    ErrFilterBundles "stable"
      (ErrInvalidRange "not-a-range" "stable"
         (ErrExternal "improper constraint: not-a-range")) in
  filterV1 3 catalog configuration = Ret (Some e, catalog, [])
  ∧ renderError e
    = "could not filter bundles in package " +:+ quote "stable"
      +:+ ": invalid version range " +:+ quote "not-a-range"
      +:+ " for channel " +:+ quote "stable"
      +:+ ": improper constraint: not-a-range"
  ∧ ¬ includes "foo" (renderError e).
Proof.
  split; [by vm_compute|]. split; [reflexivity|].
  intros Hin%includes_includesb. by vm_compute in Hin.
Qed.

(** ** The configuration check of [main] *)

Lemma configRejected_true config :
  configRejected config = true
  ↔ Kind config ≠ "FilterConfiguration"
    ∧ APIVersion config ≠ "olm.operatorframework.io/v1".
Proof.
  unfold configRejected. rewrite andb_true_iff.
  by rewrite !bool_decide_eq_true.
Qed.

(** C7, at the failing input.  A configuration of the right kind and a
    wrong API version is not rejected, and neither is one of a wrong kind
    and the right API version: [main] renders, filters and writes the
    catalog and returns without an error message. *)
Theorem configRejected_needs_both :
  let wrongVersion :=
    mkFilterConfiguration "FilterConfiguration" "example.com/v2"
      [mkV1Package "foo" "" []] in
  let wrongKind :=
    mkFilterConfiguration "Deployment" "olm.operatorframework.io/v1"
      [mkV1Package "foo" "" []] in
  configRejected wrongVersion = false
  ∧ configRejected wrongKind = false
  ∧ main (env := envOf wrongVersion) 0 "filter.yaml" false "yaml"
        ["catalog"]
    = Ret (None, [])
  ∧ main (env := envOf wrongKind) 0 "filter.yaml" false "yaml"
        ["catalog"]
    = Ret (None, []).
Proof. repeat split; by vm_compute. Qed.

(** * Further properties of the filters *)

(** ** Bundles are only removed *)

Section OwnedBundles.
Context {sem : SemverLib}.
Variable versionRange : Constraints.
Variable ch : Channel.
Hypothesis Hkeyed : keyedBy Name (Bundles ch).

Lemma replaced_owned b b' :
  replaced ch b = Some b' → Bundles ch !! Name b' = Some b'.
Proof.
  unfold replaced. intros Hb. by rewrite (Hkeyed _ _ Hb).
Qed.

Lemma chain_owned cur l :
  (∀ b, cur = Some b → Bundles ch !! Name b = Some b) →
  chain ch cur l → ∀ b, b ∈ l → Bundles ch !! Name b = Some b.
Proof.
  revert cur. induction l as [|x l IH]; intros cur Hcur Hc b Hb.
  { by apply elem_of_nil in Hb. }
  destruct Hc as [-> Hc]. apply elem_of_cons in Hb as [->|Hb]; [by apply Hcur|].
  apply (IH (replaced ch x)); [|done|done].
  intros b'. apply replaced_owned.
Qed.

Lemma addSkips_subseteq b bundles :
  bundles ⊆ Bundles ch → addSkips versionRange ch b bundles ⊆ Bundles ch.
Proof.
  unfold addSkips. generalize (Skips b) as skips. intros skips. revert bundles.
  induction skips as [|skip skips IH]; intros bundles Hsub; simpl; [done|].
  apply IH. destruct (Bundles ch !! skip) as [skipBundle|] eqn:Hskip; [|done].
  destruct (inRange versionRange skipBundle); [|done].
  apply insert_subseteq_l; [|done]. by rewrite (Hkeyed _ _ Hskip).
Qed.

Lemma findHead_owned fuel cur head cur' :
  (∀ b, cur = Some b → Bundles ch !! Name b = Some b) →
  findHead versionRange ch fuel cur = Ret (head, cur') →
  ∀ b, head = Some b → Bundles ch !! Name b = Some b.
Proof.
  revert cur. induction fuel as [|fuel IH]; intros cur Hcur; simpl;
    (destruct cur as [x|]; [|by intros [= <- <-]]);
    (destruct (inRange versionRange x); [intros [= <- <-]; by apply Hcur|]);
    (destruct (skipsIntoRange versionRange ch x);
     [intros [= <- <-]; by apply Hcur|]); [done|].
  apply IH. intros b'. apply replaced_owned.
Qed.

Lemma collect_subseteq channelConfig fuel cur tail bundles warnings
    bundles' warnings' :
  (∀ b, cur = Some b → Bundles ch !! Name b = Some b) →
  bundles ⊆ Bundles ch →
  collect versionRange ch channelConfig fuel cur tail bundles warnings
  = Ret (bundles', warnings') →
  bundles' ⊆ Bundles ch.
Proof.
  revert cur bundles warnings.
  induction fuel as [|fuel IH]; intros cur bundles warnings Hcur Hsub; simpl;
    (case_decide; [by intros [= <- _]|]);
    (destruct cur as [b|]; [|done]); [done|].
  apply IH.
  - intros b'. apply replaced_owned.
  - apply addSkips_subseteq, insert_subseteq_l; [by apply Hcur | done].
Qed.
End OwnedBundles.

Lemma filterBundles_submap {sem : SemverLib} {reg : RegistryLib}
    fuel ch channelConfig first err ch' warnings :
  keyedBy Name (Bundles ch) →
  Head ch = inr first →
  Bundles ch !! Name first = Some first →
  filterBundles fuel ch channelConfig = Ret (err, ch', warnings) →
  ChName ch' = ChName ch
  ∧ ChPackage ch' = ChPackage ch
  ∧ (err ≠ None → ch' = ch)
  ∧ (err = None → Bundles ch' ≠ ∅ ∧ Bundles ch' ⊆ Bundles ch).
Proof.
  intros Hkeyed Hhead Hfirst. unfold filterBundles. rewrite Hhead.
  destruct (NewConstraint (VersionRange channelConfig)) as [e|versionRange].
  { intros [= <- <- <-]. by repeat split. }
  destruct (findHead versionRange ch fuel (Some first))
    as [| |[head cur]] eqn:Hfind; [done|done|]. cbn [obind].
  destruct (findTail versionRange ch fuel cur) as [| |tail]; [done|done|].
  cbn [obind].
  destruct (collect versionRange ch channelConfig fuel head tail ∅ [])
    as [| |[bundles ws]] eqn:Hcol; [done|done|]. cbn [obind].
  case_decide as Hsize; intros [= <- <- <-]; [by repeat split|].
  split; [done|]. split; [done|]. split; [done|]. intros _. simpl. split.
  - by apply map_size_non_empty_iff.
  - eapply collect_subseteq; [done| |apply map_empty_subseteq|exact Hcol].
    eapply findHead_owned; [done| |exact Hfind]. by intros b [= <-].
Qed.


(** X1.  [filterBundles] never invents or alters a bundle.  On a channel
    whose bundles are stored under their names and whose head is one of
    them, whatever the range and the shape of the chain: the channel keeps
    its name and package; on failure it is returned as it was; on success
    its new bundle map is not empty and every entry of it is an entry of
    the old one, under the name of the bundle. *)
Theorem filterBundles_only_removes {sem : SemverLib} {reg : RegistryLib}
    fuel ch channelConfig first err ch' warnings :
  keyedBy Name (Bundles ch) →
  Head ch = inr first →
  Bundles ch !! Name first = Some first →
  filterBundles fuel ch channelConfig = Ret (err, ch', warnings) →
  ChName ch' = ChName ch
  ∧ ChPackage ch' = ChPackage ch
  ∧ (err ≠ None → ch' = ch)
  ∧ (err = None →
     Bundles ch' ≠ ∅
     ∧ ∀ k b, Bundles ch' !! k = Some b →
              Bundles ch !! k = Some b ∧ Name b = k).
Proof.
  intros Hkeyed Hhead Hfirst Hrun.
  destruct (filterBundles_submap _ _ _ _ _ _ _ Hkeyed Hhead Hfirst Hrun)
    as (Hn & Hp & Hfail & Hok).
  split; [done|]. split; [done|]. split; [done|].
  intros Herr. destruct (Hok Herr) as [Hne Hsub]. split; [done|].
  intros k b Hk. pose proof (lookup_weaken _ _ _ _ Hk Hsub) as Hk'.
  split; [done|]. by apply (Hkeyed k).
Qed.

(** On the chain of Scenario B with [>=1.1.0], which drops v1.0.0. *)
Lemma filterBundles_only_removes_witness :
  ChName (channelOf "foo" "stable" [v110; v200]) = ChName stable
  ∧ ChPackage (channelOf "foo" "stable" [v110; v200]) = ChPackage stable
  ∧ (@None error ≠ None → channelOf "foo" "stable" [v110; v200] = stable)
  ∧ (@None error = None →
     Bundles (channelOf "foo" "stable" [v110; v200]) ≠ ∅
     ∧ ∀ k b,
         Bundles (channelOf "foo" "stable" [v110; v200]) !! k = Some b →
         Bundles stable !! k = Some b ∧ Name b = k).
Proof.
  apply (filterBundles_only_removes (sem := semver) (reg := registry) 3
           stable (mkV1Channel "stable" ">=1.1.0") v200 None _ []).
  - apply (bool_decide_unpack _). by vm_compute.
  - reflexivity.
  - reflexivity.
  - by vm_compute.
Defined.

(** ** What survives the filtering of a finite chain *)

Section Survivors.
Context {sem : SemverLib}.
Variable versionRange : Constraints.
Variable ch : Channel.
Hypothesis Hkeyed : keyedBy Name (Bundles ch).

Lemma skipTargetOf_reaches c v :
  skipTargetOf versionRange ch c v → reaches versionRange ch c = true.
Proof.
  intros (skip & Hskip & Hlook & Hin). unfold reaches, skipsIntoRange.
  apply orb_true_iff. right. apply existsb_exists. exists skip.
  split; [by apply list_elem_of_In|]. by rewrite Hlook.
Qed.

Lemma reaches_segment l b :
  b ∈ l → reaches versionRange ch b = true → b ∈ segment versionRange ch l.
Proof.
  intros (l1 & l2 & ->)%list_elem_of_split Hb. apply elem_of_segment.
  exists l1, l2. split; [done|]. split.
  - rewrite existsb_app. simpl. by rewrite Hb, orb_true_r.
  - simpl. by rewrite Hb.
Qed.

Lemma addSkips_has b bundles v :
  skipTargetOf versionRange ch b v →
  is_Some (addSkips versionRange ch b bundles !! Name v).
Proof.
  intros (skip & Hskip & Hlook & Hin). unfold addSkips.
  revert bundles. induction (Skips b) as [|s skips IH]; intros bundles.
  { by apply elem_of_nil in Hskip. }
  apply elem_of_cons in Hskip as [<-|Hskip]; simpl.
  - rewrite Hlook, Hin. apply (addSkips_keeps versionRange ch
                                 (mkBundle "" (Version b) "" skips)).
    by rewrite lookup_insert_eq.
  - by apply IH.
Qed.

Lemma collected_has l bundles b :
  b ∈ l → is_Some (collected versionRange ch l bundles !! Name b).
Proof.
  unfold collected. revert bundles.
  induction l as [|x l IH]; intros bundles Hb; [by apply elem_of_nil in Hb|].
  apply elem_of_cons in Hb as [->|Hb]; simpl; [|by apply IH].
  apply (collected_keeps versionRange ch l), addSkips_keeps.
  by rewrite lookup_insert_eq.
Qed.

Lemma collected_has_skip l bundles c v :
  c ∈ l → skipTargetOf versionRange ch c v →
  is_Some (collected versionRange ch l bundles !! Name v).
Proof.
  unfold collected. revert bundles.
  induction l as [|x l IH]; intros bundles Hc Hv; [by apply elem_of_nil in Hc|].
  apply elem_of_cons in Hc as [->|Hc]; simpl; [|by apply IH].
  by apply (collected_keeps versionRange ch l), addSkips_has.
Qed.

Lemma collected_subseteq l bundles :
  (∀ b, b ∈ l → Bundles ch !! Name b = Some b) →
  bundles ⊆ Bundles ch →
  collected versionRange ch l bundles ⊆ Bundles ch.
Proof.
  unfold collected. revert bundles.
  induction l as [|x l IH]; intros bundles Hl Hsub; simpl; [done|].
  apply IH; [intros; apply Hl; by right|].
  apply addSkips_subseteq; [done|].
  apply insert_subseteq_l; [apply Hl; by left | done].
Qed.

(** In the map built from owned bundles, a key that is present holds the
    bundle of that name. *)
Lemma collected_exact l v :
  (∀ b, b ∈ l → Bundles ch !! Name b = Some b) →
  Bundles ch !! Name v = Some v →
  is_Some (collected versionRange ch l ∅ !! Name v) →
  collected versionRange ch l ∅ !! Name v = Some v.
Proof.
  intros Hl Hv [w Hw]. rewrite Hw. f_equal.
  pose proof (collected_subseteq l ∅ Hl (map_empty_subseteq _)) as Hsub.
  eapply lookup_weaken in Hw; [|exact Hsub]. congruence.
Qed.
End Survivors.

(** A stretch [s] of a chain of [ch] is a chain of a channel [ch'] that
    holds a part of the bundles of [ch], among them the bundles of [s],
    and not the bundle that follows [s]. *)
Lemma chain_transfer (ch ch' : Channel) s rest cur :
  keyedBy Name (Bundles ch) →
  Bundles ch' ⊆ Bundles ch →
  (∀ b, b ∈ s → Bundles ch' !! Name b = Some b) →
  (∀ t, head rest = Some t → Bundles ch' !! Name t = None) →
  chain ch cur (s ++ rest) →
  chain ch' (head s) s.
Proof.
  intros Hkeyed Hsub Hkept Hdropped. revert cur.
  induction s as [|b s IH]; intros cur Hchain; [done|].
  destruct Hchain as [-> Hchain]. simpl. split; [done|].
  assert (replaced ch' b = head s) as ->.
  2:{ apply (IH (fun x Hx => Hkept x (list_elem_of_further _ _ _ Hx))
               (replaced ch b) Hchain). }
  unfold replaced in *. destruct s as [|b' s]; simpl in *.
  - apply chain_head in Hchain.
    destruct (head rest) as [t|] eqn:Ht.
    + rewrite <- (Hkeyed _ _ Hchain). by apply Hdropped.
    + by eapply lookup_weaken_None.
  - destruct Hchain as [Hb' _]. rewrite <- (Hkeyed _ _ Hb').
    apply Hkept. right. by left.
Qed.

Section FiniteChainResults.
Context {sem : SemverLib} {reg : RegistryLib}.

(** X2.  Nothing in the range is lost along the chain.  On a channel
    stored under names, with a finite replaces-chain [l] from its head: a
    bundle that is in the range and is either on the chain or a resolvable
    skip of a chain bundle makes [filterBundles] succeed, and is found
    under its name in the result. *)
Theorem filterBundles_keeps_in_range fuel ch channelConfig first versionRange
    l v :
  keyedBy Name (Bundles ch) →
  Head ch = inr first →
  Bundles ch !! Name first = Some first →
  NewConstraint (VersionRange channelConfig) = inr versionRange →
  chain ch (Some first) l →
  length l ≤ fuel →
  (v ∈ l ∧ inRange versionRange v = true)
  ∨ (∃ c, c ∈ l ∧ skipTargetOf versionRange ch c v) →
  ∃ ch' warnings,
    filterBundles fuel ch channelConfig = Ret (None, ch', warnings)
    ∧ Bundles ch' !! Name v = Some v.
Proof.
  intros Hkeyed Hhead Hfirst Hparse Hc Hlen Hv.
  rewrite (filterBundles_chain _ _ _ _ _ _ Hhead Hparse Hc Hlen).
  assert (∀ b, b ∈ l → Bundles ch !! Name b = Some b) as Hl.
  { apply (chain_owned ch Hkeyed (Some first)); [|done]. by intros b [= <-]. }
  assert (∀ b, b ∈ segment versionRange ch l → Bundles ch !! Name b = Some b)
    as Hseg.
  { intros b (l1 & l2 & -> & _)%elem_of_segment. apply Hl.
    apply elem_of_app. right. by left. }
  assert (Bundles ch !! Name v = Some v
          ∧ is_Some (collected versionRange ch (segment versionRange ch l) ∅
                     !! Name v)
          ∧ segment versionRange ch l ≠ []) as (Hown & Hin & Hne).
  { destruct Hv as [[Hvl Hvr]|(c & Hcl & Hcv)].
    - assert (v ∈ segment versionRange ch l) as Hvs.
      { apply reaches_segment; [done|]. unfold reaches. by rewrite Hvr. }
      split; [by apply Hl|]. split; [by apply collected_has|].
      intros Heq. rewrite Heq in Hvs. by apply elem_of_nil in Hvs.
    - assert (c ∈ segment versionRange ch l) as Hcs.
      { apply reaches_segment; [done|]. by eapply skipTargetOf_reaches. }
      split.
      { destruct Hcv as (skip & _ & Hlook & _).
        by rewrite (Hkeyed _ _ Hlook). }
      split; [by eapply collected_has_skip|].
      intros Heq. rewrite Heq in Hcs. by apply elem_of_nil in Hcs. }
  destruct (segment versionRange ch l) as [|h t] eqn:Heq; [done|].
  eexists _, _. split; [done|]. by apply collected_exact.
Qed.

(** X3.  The chain stays whole.  Under the same conditions, when some
    bundle of the chain is in the range or skips into it, the
    replaces-chain of the filtered channel, followed from the retained
    head, is exactly the segment: every retained chain bundle still finds
    the bundle it replaces, up to the last one, whose [Replaces] now
    resolves to nothing. *)
Theorem filterBundles_chain_unbroken fuel ch channelConfig first versionRange
    l :
  keyedBy Name (Bundles ch) →
  Head ch = inr first →
  Bundles ch !! Name first = Some first →
  NewConstraint (VersionRange channelConfig) = inr versionRange →
  chain ch (Some first) l →
  length l ≤ fuel →
  existsb (reaches versionRange ch) l = true →
  ∃ ch' warnings,
    filterBundles fuel ch channelConfig = Ret (None, ch', warnings)
    ∧ segment versionRange ch l ≠ []
    ∧ chain ch' (head (segment versionRange ch l)) (segment versionRange ch l).
Proof.
  intros Hkeyed Hhead Hfirst Hparse Hc Hlen Hsome.
  rewrite (filterBundles_chain _ _ _ _ _ _ Hhead Hparse Hc Hlen).
  assert (∀ b, b ∈ l → Bundles ch !! Name b = Some b) as Hl.
  { apply (chain_owned ch Hkeyed (Some first)); [|done]. by intros b [= <-]. }
  destruct (segment_split versionRange ch l) as (l0 & Hsplit & Hl0).
  pose proof (afterLast_unreached versionRange ch
                (fromFirst versionRange ch l)) as Hno.
  set (seg := segment versionRange ch l) in *.
  set (rest := afterLast versionRange ch (fromFirst versionRange ch l)) in *.
  assert (∀ b, b ∈ seg → Bundles ch !! Name b = Some b) as Hseg.
  { intros b Hb. apply Hl. rewrite Hsplit.
    apply elem_of_app. right. apply elem_of_app. by left. }
  assert (seg ≠ []) as Hne.
  { apply existsb_exists in Hsome as (b & Hb%list_elem_of_In & Hr).
    intros Heq. pose proof (reaches_segment versionRange ch l b Hb Hr) as Hin.
    fold seg in Hin. rewrite Heq in Hin. by apply elem_of_nil in Hin. }
  pose proof (collected_subseteq versionRange ch Hkeyed seg ∅ Hseg
                (map_empty_subseteq _)) as Hsub.
  assert (chain (mkChannel (ChPackage ch) (ChName ch)
                   (collected versionRange ch seg ∅)) (head seg) seg) as Hres.
  { apply (chain_transfer ch _ seg rest (head (seg ++ rest))); try done.
    - intros b Hb. simpl. apply collected_exact; [done|done|by apply Hseg|].
      by apply collected_has.
    - intros t Ht. simpl.
      destruct (collected versionRange ch seg ∅ !! Name t) as [w|] eqn:Hw;
        [exfalso|done].
      assert (t ∈ rest) as Htr.
      { destruct rest; [done|]. injection Ht as ->. by left. }
      assert (Bundles ch !! Name t = Some t) as Hown.
      { apply Hl. rewrite Hsplit. apply elem_of_app. right.
        apply elem_of_app. by right. }
      pose proof (lookup_weaken _ _ _ _ Hw Hsub) as Hw'.
      assert (w = t) as -> by congruence.
      apply collected_lookup in Hw as [Hw|[Hw|(c & _ & _ & _ & _ & Hin)]].
      + by rewrite lookup_empty in Hw.
      + apply chain_NoDup in Hc. rewrite Hsplit in Hc.
        apply NoDup_app in Hc as (_ & _ & Hc).
        apply NoDup_app in Hc as (_ & Hc & _). by apply (Hc t).
      + destruct rest as [|t' rest']; [done|]. injection Ht as ->.
        simpl in Hno. apply orb_false_elim in Hno as [Hrt _].
        apply reaches_false in Hrt as [Hrt _]. congruence.
    - rewrite Hsplit in Hc. by apply chain_suffix in Hc. }
  destruct seg as [|h t] eqn:Heq; [done|].
  eexists _, _. split; [done|]. split; [done|]. exact Hres.
Qed.

(** X4.  A range that admits everything changes nothing.  When every
    bundle of the channel lies on the finite replaces-chain from the head
    and is in the range, [filterBundles] succeeds, leaves the channel as it
    was and warns about nothing. *)
Theorem filterBundles_all_in_range fuel ch channelConfig first versionRange l :
  keyedBy Name (Bundles ch) →
  Head ch = inr first →
  Bundles ch !! Name first = Some first →
  NewConstraint (VersionRange channelConfig) = inr versionRange →
  chain ch (Some first) l →
  length l ≤ fuel →
  map_Forall (fun _ b => b ∈ l) (Bundles ch) →
  Forall (fun b => inRange versionRange b = true) l →
  filterBundles fuel ch channelConfig = Ret (None, ch, []).
Proof.
  intros Hkeyed Hhead Hfirst Hparse Hc Hlen Hall Hin.
  rewrite (filterBundles_chain _ _ _ _ _ _ Hhead Hparse Hc Hlen).
  rewrite Forall_forall in Hin.
  assert (∀ b, b ∈ l → Bundles ch !! Name b = Some b) as Hl.
  { apply (chain_owned ch Hkeyed (Some first)); [|done]. by intros b [= <-]. }
  assert (∀ b, b ∈ l → b ∈ segment versionRange ch l) as Hseg.
  { intros b Hb. apply reaches_segment; [done|]. unfold reaches.
    by rewrite (Hin b Hb). }
  assert (∀ b, b ∈ segment versionRange ch l → b ∈ l) as Hseg'.
  { intros b (l1 & l2 & -> & _)%elem_of_segment.
    apply elem_of_app. right. by left. }
  assert (collected versionRange ch (segment versionRange ch l) ∅ = Bundles ch)
    as Hmap.
  { apply (anti_symm (⊆)).
    - apply collected_subseteq; [done| |apply map_empty_subseteq].
      intros b Hb. by apply Hl, Hseg'.
    - apply map_subseteq_spec. intros k b Hk.
      rewrite <- (Hkeyed _ _ Hk).
      apply collected_exact; [done| |by rewrite (Hkeyed _ _ Hk)|].
      + intros x Hx. by apply Hl, Hseg'.
      + apply collected_has, Hseg. by apply (Hall k). }
  assert (warningsFor versionRange ch channelConfig (segment versionRange ch l)
          = []) as Hws.
  { unfold warningsFor.
    replace (filter (fun b => inRange versionRange b = false)
               (segment versionRange ch l)) with (@nil Bundle); [done|].
    symmetry. destruct (filter _ _) as [|x xs] eqn:Hf; [done|]. exfalso.
    assert (x ∈ filter (fun b => inRange versionRange b = false)
                  (segment versionRange ch l)) as Hx by (rewrite Hf; by left).
    apply list_elem_of_filter in Hx as [Hx Hxs].
    rewrite (Hin x (Hseg' x Hxs)) in Hx. done. }
  destruct (segment versionRange ch l) as [|h t] eqn:Heq.
  - exfalso. destruct l as [|x l']; [done|].
    assert (x ∈ @nil Bundle) as Hx by (apply Hseg; by left).
    by apply elem_of_nil in Hx.
  - cbv zeta. rewrite Hws, Hmap. by destruct ch.
Qed.
End FiniteChainResults.

(** On Scenario E: v1.2.0 is in the range and on the chain. *)
Lemma filterBundles_keeps_in_range_witness :
  ∃ ch' warnings,
    filterBundles 3 scenarioE rangeE = Ret (None, ch', warnings)
    ∧ Bundles ch' !! Name e120 = Some e120.
Proof.
  apply (filterBundles_keeps_in_range (sem := semver) (reg := registry) 3
           scenarioE rangeE e200 parsedE [e200; e150; e120] e120).
  - apply (bool_decide_unpack _). by vm_compute.
  - reflexivity.
  - reflexivity.
  - reflexivity.
  - repeat split; reflexivity.
  - simpl. lia.
  - left. split; [|reflexivity]. apply (bool_decide_unpack _). by vm_compute.
Defined.

(** On the chain of Scenario B with [>=1.1.0]: v2.0.0 and v1.1.0 stay
    linked and v1.1.0 becomes the end of the chain. *)
Lemma filterBundles_chain_unbroken_witness :
  ∃ ch' warnings,
    filterBundles 3 stable (mkV1Channel "stable" ">=1.1.0")
    = Ret (None, ch', warnings)
    ∧ segment [[(OpGe, (1, 1, 0)%N)]] stable [v200; v110; v100] ≠ []
    ∧ chain ch' (head (segment [[(OpGe, (1, 1, 0)%N)]] stable [v200; v110; v100]))
            (segment [[(OpGe, (1, 1, 0)%N)]] stable [v200; v110; v100]).
Proof.
  apply (filterBundles_chain_unbroken (sem := semver) (reg := registry) 3
           stable (mkV1Channel "stable" ">=1.1.0") v200
           [[(OpGe, (1, 1, 0)%N)]] [v200; v110; v100]).
  - apply (bool_decide_unpack _). by vm_compute.
  - reflexivity.
  - reflexivity.
  - reflexivity.
  - repeat split; reflexivity.
  - simpl. lia.
  - reflexivity.
Defined.

(** On the chain of Scenario B with a range that admits its three
    bundles. *)
Lemma filterBundles_all_in_range_witness :
  filterBundles 3 stable rangeE = Ret (None, stable, []).
Proof.
  apply (filterBundles_all_in_range (sem := semver) (reg := registry) 3
           stable rangeE v200 parsedE [v200; v110; v100]).
  - apply (bool_decide_unpack _). by vm_compute.
  - reflexivity.
  - reflexivity.
  - reflexivity.
  - repeat split; reflexivity.
  - simpl. lia.
  - apply (bool_decide_unpack _). by vm_compute.
  - apply (bool_decide_unpack _). by vm_compute.
Defined.

(** ** The shape of every result of [filterBundles] *)

Section ResultShape.
Context {sem : SemverLib}.
Variable versionRange : Constraints.
Variable ch : Channel.

Lemma addSkips_keyed b bundles :
  keyedBy Name bundles → keyedBy Name (addSkips versionRange ch b bundles).
Proof.
  unfold addSkips. generalize (Skips b) as skips. intros skips. revert bundles.
  induction skips as [|skip skips IH]; intros bundles Hk; simpl; [done|].
  apply IH. destruct (Bundles ch !! skip) as [skipBundle|]; [|done].
  destruct (inRange versionRange skipBundle); [|done].
  by apply map_Forall_insert_2.
Qed.

Lemma addSkips_nonempty b bundles :
  bundles ≠ ∅ → addSkips versionRange ch b bundles ≠ ∅.
Proof.
  intros Hne Hempty. apply map_choose in Hne as (k & v & Hk).
  destruct (addSkips_keeps versionRange ch b bundles k) as [w Hw]; [eauto|].
  by rewrite Hempty, lookup_empty in Hw.
Qed.

(** The third loop keeps the map keyed by name, and as soon as its body
    has run the map is not empty; before that nothing was warned. *)
Lemma collect_shape channelConfig fuel cur tail bundles warnings bundles'
    warnings' :
  keyedBy Name bundles →
  collect versionRange ch channelConfig fuel cur tail bundles warnings
  = Ret (bundles', warnings') →
  keyedBy Name bundles'
  ∧ ((bundles' = bundles ∧ warnings' = warnings) ∨ bundles' ≠ ∅).
Proof.
  revert cur bundles warnings.
  induction fuel as [|fuel IH]; intros cur bundles warnings Hk; simpl;
    (case_decide; [intros [= <- <-]; split; [done | by left]|]);
    (destruct cur as [b|]; [|done]); [done|].
  intros Hcol. apply IH in Hcol as [Hk' Hcases].
  2:{ by apply addSkips_keyed, map_Forall_insert_2. }
  split; [done|]. right. destruct Hcases as [[-> _]|Hne]; [|done].
  apply addSkips_nonempty. apply insert_non_empty.
Qed.
End ResultShape.

(** X5.  Whatever the channel, the range and the shape of the chain: when
    [filterBundles] fails, the channel is returned as it was and nothing
    has been warned; when it succeeds, every bundle of the new map is
    stored under its own name. *)
Theorem filterBundles_result_shape {sem : SemverLib} {reg : RegistryLib}
    fuel ch channelConfig err ch' warnings :
  filterBundles fuel ch channelConfig = Ret (err, ch', warnings) →
  (err ≠ None → ch' = ch ∧ warnings = [])
  ∧ (err = None → keyedBy Name (Bundles ch')).
Proof.
  unfold filterBundles. destruct (Head ch) as [e|first].
  { intros [= <- <- <-]. by split. }
  destruct (NewConstraint (VersionRange channelConfig)) as [e|versionRange].
  { intros [= <- <- <-]. by split. }
  destruct (findHead versionRange ch fuel (Some first)) as [| |[head cur]];
    [done|done|]. cbn [obind].
  destruct (findTail versionRange ch fuel cur) as [| |tail]; [done|done|].
  cbn [obind].
  destruct (collect versionRange ch channelConfig fuel head tail ∅ [])
    as [| |[bundles ws]] eqn:Hcol; [done|done|]. cbn [obind].
  apply collect_shape in Hcol as [Hk Hcases]; [|apply map_Forall_empty].
  case_decide as Hsize; intros [= <- <- <-].
  - split; [|done]. intros _. split; [done|].
    destruct Hcases as [[_ ->]|Hne]; [done|].
    by apply map_size_non_empty_iff in Hne.
  - split; [done|]. by intros _.
Qed.

(** On Scenario C, which fails, and every conclusion at once. *)
Lemma filterBundles_result_shape_witness :
  (Some (ErrNoBundlesInRange "stable" "foo" ">=2.0.0 <2.0.0") ≠ None →
   stable = stable ∧ @nil warning = [])
  ∧ (Some (ErrNoBundlesInRange "stable" "foo" ">=2.0.0 <2.0.0") = None →
     keyedBy Name (Bundles stable)).
Proof.
  apply (filterBundles_result_shape (sem := semver) (reg := registry) 3
           stable rangeNone).
  by vm_compute.
Defined.

(** ** Packages and channels: what is kept *)

Lemma keyedBy_subseteq {V} (name : V → string) (m' m : gmap string V) :
  m' ⊆ m → keyedBy name m → keyedBy name m'.
Proof.
  intros Hsub Hm k v Hk. apply Hm. by eapply lookup_weaken.
Qed.

Lemma rangeDelete_filter {V} (name : V → string) keep (m : gmap string V) :
  keyedBy name m →
  rangeDelete name keep m = filter (fun kv => kv.1 ∈ keep) m.
Proof.
  intros Hm. apply map_eq. intros k. rewrite rangeDelete_lookup by done.
  symmetry. case_decide as Hk.
  - destruct (m !! k) as [v|] eqn:Hlook.
    + by apply map_lookup_filter_Some.
    + apply map_lookup_filter_None. by left.
  - apply map_lookup_filter_None. right. by intros v _.
Qed.

Lemma rangeDelete_idemp {V} (name : V → string) keep (m : gmap string V) :
  keyedBy name m →
  rangeDelete name keep (rangeDelete name keep m) = rangeDelete name keep m.
Proof.
  intros Hm.
  assert (keyedBy name (rangeDelete name keep m)) as Hm'.
  { eapply keyedBy_subseteq; [apply rangeDelete_subseteq | done]. }
  apply map_eq. intros k. rewrite !rangeDelete_lookup by done.
  by case_decide.
Qed.

(** X6.  On a catalog whose packages are stored under their names,
    [filterPackages] keeps exactly the packages the configuration names,
    untouched, and drops every other one; a name of the configuration that
    the catalog does not have adds nothing; the result is again stored
    under names, and filtering it again changes nothing. *)
Theorem filterPackages_exact (m : Model) ps :
  keyedBy PkgName m →
  (∀ k, filterPackages m ps !! k
        = if decide (k ∈ packageNames ps) then m !! k else None)
  ∧ keyedBy PkgName (filterPackages m ps)
  ∧ filterPackages (filterPackages m ps) ps = filterPackages m ps.
Proof.
  intros Hm. split; [|split].
  - intros k. by apply rangeDelete_lookup.
  - eapply keyedBy_subseteq; [apply rangeDelete_subseteq | done].
  - by apply rangeDelete_idemp.
Qed.

(** On the catalog, naming [foo] and a package that does not exist. *)
Lemma filterPackages_exact_witness :
  (∀ k, filterPackages catalog
          [mkV1Package "foo" "" []; mkV1Package "baz" "" []] !! k
        = if decide (k ∈ packageNames
                           [mkV1Package "foo" "" []; mkV1Package "baz" "" []])
          then catalog !! k else None)
  ∧ keyedBy PkgName
      (filterPackages catalog
         [mkV1Package "foo" "" []; mkV1Package "baz" "" []])
  ∧ filterPackages
      (filterPackages catalog
         [mkV1Package "foo" "" []; mkV1Package "baz" "" []])
      [mkV1Package "foo" "" []; mkV1Package "baz" "" []]
    = filterPackages catalog
        [mkV1Package "foo" "" []; mkV1Package "baz" "" []].
Proof.
  apply (filterPackages_exact catalog
           [mkV1Package "foo" "" []; mkV1Package "baz" "" []]).
  apply (bool_decide_unpack _). by vm_compute.
Defined.

(** X7.  Whatever the maps look like, the two pruning steps only remove:
    every package [filterPackages] leaves is a package of the catalog,
    unchanged, and [filterChannels] returns the package under the same
    name with channels that all are channels it had, unchanged, whether it
    fails or not. *)
Theorem pruning_only_removes (m : Model) ps p pkgConfig :
  filterPackages m ps ⊆ m
  ∧ PkgName (filterChannels p pkgConfig).1.2 = PkgName p
  ∧ Channels (filterChannels p pkgConfig).1.2 ⊆ Channels p.
Proof.
  split; [apply rangeDelete_subseteq|].
  destruct (filterChannels p pkgConfig) as [[e p'] ws] eqn:Hfc.
  by apply filterChannels_pruned in Hfc as [? ?].
Qed.

Section ChannelPruning.
Variable p : Package.
Variable pkgConfig : v1Package.
Hypothesis Hkeyed : keyedBy ChName (Channels p).

Lemma filterChannels_inv err p' warnings :
  filterChannels p pkgConfig = (err, p', warnings) →
  ∃ p1 e,
    PkgName p1 = PkgName p
    ∧ DefaultChannel p1 = DefaultChannel p
    ∧ Channels p1
      = match PChannels pkgConfig with
        | [] => Channels p
        | _ => filter (fun kc => kc.1 ∈
                         (list_to_set (CName <$> PChannels pkgConfig)
                          : gset string)) (Channels p)
        end
    ∧ setDefaultChannel p1 pkgConfig = (e, p', warnings)
    ∧ err = ErrDefaultChannelConfig <$> e.
Proof.
  unfold filterChannels.
  set (p1 := if decide (0 < length (PChannels pkgConfig)) then _ else p).
  intros Hfc. exists p1.
  destruct (setDefaultChannel p1 pkgConfig) as [[e p2] ws] eqn:Hset.
  exists e. assert (p2 = p' ∧ ws = warnings ∧ err = ErrDefaultChannelConfig <$> e)
    as (-> & -> & ->) by (destruct e; by simplify_eq).
  subst p1. destruct (PChannels pkgConfig) as [|c cs] eqn:Hcs.
  - rewrite decide_False by (simpl; lia). done.
  - rewrite decide_True by (simpl; lia). simpl.
    rewrite rangeDelete_filter by done. done.
Qed.

Lemma setDefaultChannel_channels q err q' warnings :
  setDefaultChannel q pkgConfig = (err, q', warnings) →
  PkgName q' = PkgName q ∧ Channels q' = Channels q.
Proof.
  unfold setDefaultChannel. intros Heq.
  repeat (case_decide || case_match); by simplify_eq.
Qed.
End ChannelPruning.

(** X8.  On a package whose channels are stored under their names,
    [filterChannels] leaves, whether the default channel resolves or not,
    all the channels when the configuration lists none, and otherwise
    exactly the channels whose names it lists. *)
Theorem filterChannels_channels p pkgConfig err p' warnings :
  keyedBy ChName (Channels p) →
  filterChannels p pkgConfig = (err, p', warnings) →
  Channels p'
  = match PChannels pkgConfig with
    | [] => Channels p
    | _ => filter (fun kc => kc.1 ∈
                     (list_to_set (CName <$> PChannels pkgConfig)
                      : gset string)) (Channels p)
    end.
Proof.
  intros Hkeyed Hfc.
  apply filterChannels_inv in Hfc as (p1 & e & _ & _ & Hchs & Hset & _);
    [|done].
  apply setDefaultChannel_channels in Hset as [_ ->]. done.
Qed.

(** On [foo], keeping [stable] and a channel it does not have. *)
Lemma filterChannels_channels_witness :
  Channels (mkPackage "foo" "stable" {["stable" := stable]})
  = filter (fun kc => kc.1 ∈
              (list_to_set
                 (CName <$> [mkV1Channel "stable" ""; mkV1Channel "beta" ""])
               : gset string)) (Channels pkgFoo).
Proof.
  apply (filterChannels_channels pkgFoo
           (mkV1Package "foo" ""
              [mkV1Channel "stable" ""; mkV1Channel "beta" ""])
           None _ []).
  - apply (bool_decide_unpack _). by vm_compute.
  - by vm_compute.
Defined.

(** X9.  When [filterChannels] succeeds on a package whose channels are
    stored under their names, the default channel of the result is one of
    its channels, and at most one warning was emitted. *)
Theorem filterChannels_default_present p pkgConfig p' warnings :
  keyedBy ChName (Channels p) →
  filterChannels p pkgConfig = (None, p', warnings) →
  is_Some (Channels p' !! DefaultChannel p') ∧ length warnings ≤ 1.
Proof.
  intros Hkeyed Hfc.
  apply filterChannels_inv in Hfc as (p1 & e & _ & _ & Hchs & Hset & He);
    [|done].
  destruct e; [done|].
  assert (keyedBy ChName (Channels p1)) as Hk1.
  { rewrite Hchs. destruct (PChannels pkgConfig); [done|].
    eapply keyedBy_subseteq; [apply map_filter_subseteq | done]. }
  unfold setDefaultChannel in Hset.
  destruct (bool_decide (is_Some (Channels p1 !! DefaultChannel p1))) eqn:Hdef.
  - apply bool_decide_eq_true_1 in Hdef. case_decide.
    + destruct (Channels p1 !! PDefaultChannel pkgConfig) as [c|] eqn:Hov;
        injection Hset as <- <-; simpl; (split; [|lia]); [|done].
      rewrite (Hk1 _ _ Hov). eauto.
    + injection Hset as <- <-. split; [done | simpl; lia].
  - case_decide; [|done].
    destruct (Channels p1 !! PDefaultChannel pkgConfig) as [c|] eqn:Hov;
      [|done].
    injection Hset as <- <-. simpl. split; [|lia].
    rewrite (Hk1 _ _ Hov). eauto.
Qed.

(** On [foo], with an override that names its channel [alpha]. *)
Lemma filterChannels_default_present_witness :
  is_Some (Channels (mkPackage "foo" "alpha" (Channels pkgFoo))
           !! DefaultChannel (mkPackage "foo" "alpha" (Channels pkgFoo)))
  ∧ length (@nil warning) ≤ 1.
Proof.
  apply (filterChannels_default_present pkgFoo (mkV1Package "foo" "alpha" [])).
  - apply (bool_decide_unpack _). by vm_compute.
  - by vm_compute.
Defined.

(** X10.  Applying a package entry twice is applying it once: when
    [filterChannels] succeeds on a package whose channels are stored under
    their names, it succeeds again on its result, changes nothing and
    repeats the same warnings. *)
Theorem filterChannels_idempotent p pkgConfig p' warnings :
  keyedBy ChName (Channels p) →
  filterChannels p pkgConfig = (None, p', warnings) →
  filterChannels p' pkgConfig = (None, p', warnings).
Proof.
  intros Hkeyed Hfc. pose proof Hfc as Hfc'.
  apply filterChannels_inv in Hfc as (p1 & e & Hn1 & Hd1 & Hchs & Hset & He);
    [|done].
  destruct e; [done|]. clear He.
  pose proof (setDefaultChannel_channels pkgConfig _ _ _ _ Hset) as [Hn Hc].
  assert (setDefaultChannel p' pkgConfig = (None, p', warnings)) as Hagain.
  { clear Hfc'. unfold setDefaultChannel in Hset |- *. rewrite Hc.
    destruct (bool_decide (is_Some (Channels p1 !! DefaultChannel p1)))
      eqn:Hdef.
    - case_decide.
      + destruct (Channels p1 !! PDefaultChannel pkgConfig) as [c|] eqn:Hov.
        * injection Hset as <- <-. done.
        * injection Hset as <- <-. by rewrite Hdef.
      + injection Hset as <- <-. by rewrite Hdef.
    - case_decide; [|done].
      destruct (Channels p1 !! PDefaultChannel pkgConfig) as [c|] eqn:Hov;
        [|done].
      injection Hset as <- <-. done. }
  unfold filterChannels.
  assert ((if decide (0 < length (PChannels pkgConfig))
           then mkPackage (PkgName p') (DefaultChannel p')
                  (rangeDelete ChName
                     (list_to_set (CName <$> PChannels pkgConfig))
                     (Channels p'))
           else p') = p') as ->; [|by rewrite Hagain].
  case_decide as Hlen; [|done].
  assert (rangeDelete ChName (list_to_set (CName <$> PChannels pkgConfig))
            (Channels p1) = Channels p1) as Hsame.
  { rewrite Hchs. destruct (PChannels pkgConfig) as [|c cs] eqn:Hcs;
      [simpl in Hlen; lia|].
    rewrite <- (rangeDelete_filter ChName _ (Channels p) Hkeyed).
    by apply rangeDelete_idemp. }
  rewrite Hc, Hsame, <- Hc. by destruct p'.
Qed.

(** On [foo], keeping only [alpha] and making it the default. *)
Lemma filterChannels_idempotent_witness :
  filterChannels (mkPackage "foo" "alpha" {["alpha" := alpha]})
    (mkV1Package "foo" "alpha" [mkV1Channel "alpha" ""])
  = (None, mkPackage "foo" "alpha" {["alpha" := alpha]}, []).
Proof.
  apply (filterChannels_idempotent pkgFoo
           (mkV1Package "foo" "alpha" [mkV1Channel "alpha" ""])).
  - apply (bool_decide_unpack _). by vm_compute.
  - by vm_compute.
Defined.

(** ** [filterV1]: all or nothing, and what its errors say *)

Section FilterV1Results.
Context {sem : SemverLib} {reg : RegistryLib}.

Lemma filterChannels_error p pkgConfig e p' warnings :
  filterChannels p pkgConfig = (Some e, p', warnings) →
  ∃ inner, e = ErrDefaultChannelConfig inner.
Proof.
  unfold filterChannels.
  destruct (setDefaultChannel _ pkgConfig) as [[[inner|] p2] ws];
    intros [= <- _ _]. eauto.
Qed.

Lemma filterV1_packages_error fuel (m : Model) ps e m' warnings :
  filterV1_packages fuel m ps = Ret (Some e, m', warnings) →
  (∃ p inner, p ∈ ps
              ∧ e = ErrFilterChannels (PName p) (ErrDefaultChannelConfig inner))
  ∨ (∃ p c inner, p ∈ ps ∧ c ∈ PChannels p
                  ∧ e = ErrFilterBundles (CName c) inner).
Proof.
  revert m m' warnings.
  induction ps as [|p ps IH]; intros m m' warnings; simpl; [done|].
  assert (∀ m0 m1 ws,
            filterV1_packages fuel m0 ps = Ret (Some e, m1, ws) →
            (∃ p0 inner, p0 ∈ p :: ps
               ∧ e = ErrFilterChannels (PName p0) (ErrDefaultChannelConfig inner))
            ∨ (∃ p0 c inner, p0 ∈ p :: ps ∧ c ∈ PChannels p0
                 ∧ e = ErrFilterBundles (CName c) inner)) as Hrec.
  { intros m0 m1 ws [(p0 & inner & Hp0 & ->)|(p0 & c & inner & Hp0 & Hc & ->)]%IH.
    - left. exists p0, inner. split; [by right | done].
    - right. exists p0, c, inner. split; [by right | done]. }
  destruct (m !! PName p) as [pkgModel|].
  2:{ destruct (filterV1_packages fuel m ps) as [| |[[e' m1] ws]] eqn:Hrun;
        cbn [obind]; try done.
      intros [= -> _ _]. by eapply Hrec. }
  destruct (filterChannels pkgModel p) as [[[e1|] pkgModel1] ws1] eqn:Hfc.
  { intros [= <- _ _]. apply filterChannels_error in Hfc as [inner ->].
    left. exists p, inner. split; [by left | done]. }
  destruct (filterV1_channels fuel (PName p) pkgModel1 (PChannels p))
    as [| |[[[e2|] pkgModel2] ws2]] eqn:Hch; cbn [obind]; try done.
  { intros [= <- _ _].
    apply filterV1_channels_error in Hch as (c & inner & Hc & ->).
    right. exists p, c, inner. split; [by left | done]. }
  destruct (filterV1_packages fuel _ ps) as [| |[[e' m1] ws]] eqn:Hrun;
    cbn [obind]; try done.
  intros [= -> _ _]. by eapply Hrec.
Qed.


(** X12.  Every error of [filterV1] is one of four: the error of the
    conversion to the model, as it is; a default-channel error under the
    name of the configured package it is about, which the message
    includes; an error of [filterBundles] under the name of a configured
    channel entry; or the error of the final validation. *)
Theorem filterV1_errors fuel fbc configuration e fbc' warnings :
  filterV1 fuel fbc configuration = Ret (Some e, fbc', warnings) →
  ConvertToModel fbc = inl e
  ∨ (∃ p inner,
       p ∈ Packages configuration
       ∧ e = ErrFilterChannels (PName p) (ErrDefaultChannelConfig inner)
       ∧ includes (PName p) (renderError e))
  ∨ (∃ p c inner,
       p ∈ Packages configuration ∧ c ∈ PChannels p
       ∧ e = ErrFilterBundles (CName c) inner
       ∧ includes (CName c) (renderError e))
  ∨ (∃ inner, e = ErrInvalidModel inner).
Proof.
  unfold filterV1. destruct (ConvertToModel fbc) as [e0|m].
  { intros [= <- _ _]. by left. }
  destruct (filterV1_packages fuel _ _) as [| |[[[e1|] m2] ws]] eqn:Hrun;
    cbn [obind]; try done.
  - intros [= <- _ _]. right.
    apply filterV1_packages_error in Hrun
      as [(p & inner & Hp & ->)|(p & c & inner & Hp & Hc & ->)].
    + left. exists p, inner. split; [done|]. split; [done|].
      cbn [renderError]. eauto with messages.
    + right. left. exists p, c, inner. do 3 (split; [done|]).
      cbn [renderError]. eauto with messages.
  - destruct (Validate m2) as [e2|]; [|done].
    intros [= <- _ _]. right. right. right. eauto.
Qed.
End FilterV1Results.


(** On the catalog, with a range that does not parse. *)
Lemma filterV1_errors_witness :
  let e :=
    ErrFilterBundles "stable"
      (ErrInvalidRange "not-a-range" "stable"
         (ErrExternal "improper constraint: not-a-range")) in
  let configuration :=
    configOf [mkV1Package "foo" "" [mkV1Channel "stable" "not-a-range"]] in
  @ConvertToModel registry catalog = inl e
  ∨ (∃ p inner,
       p ∈ Packages configuration
       ∧ e = ErrFilterChannels (PName p) (ErrDefaultChannelConfig inner)
       ∧ includes (PName p) (renderError e))
  ∨ (∃ p c inner,
       p ∈ Packages configuration ∧ c ∈ PChannels p
       ∧ e = ErrFilterBundles (CName c) inner
       ∧ includes (CName c) (renderError e))
  ∨ (∃ inner, e = ErrInvalidModel inner).
Proof.
  apply (filterV1_errors (sem := semver) (reg := registry) 3 catalog
           (configOf [mkV1Package "foo" "" [mkV1Channel "stable" "not-a-range"]])
           _ catalog []).
  by vm_compute.
Defined.

(** ** Names the catalog does not have *)

Section MissingNames.
Context {sem : SemverLib} {reg : RegistryLib}.

(** X13.  Packages the catalog does not have are not an error.  When the
    catalog (stored under names) has none of the packages the
    configuration names, and the validation accepts the empty model,
    [filterV1] succeeds with the empty catalog and one package-not-found
    warning for each entry of the configuration, in its order. *)
Theorem filterV1_unknown_packages fuel fbc configuration (m : Model) :
  ConvertToModel fbc = inr m →
  keyedBy PkgName m →
  Forall (fun p => PName p ∉ dom m) (Packages configuration) →
  Validate ∅ = None →
  filterV1 fuel fbc configuration
  = Ret (None, ConvertFromModel ∅,
         (fun p => WarnPackageNotFound (PName p)) <$> Packages configuration).
Proof.
  intros Hconv Hkeyed Hmissing Hval. unfold filterV1. rewrite Hconv.
  assert (filterPackages m (Packages configuration) = ∅) as ->.
  { apply map_eq. intros k. rewrite filterPackages_lookup by done.
    rewrite lookup_empty. case_decide as Hk; [|done].
    apply elem_of_list_to_set, list_elem_of_fmap in Hk as (p & -> & Hp).
    rewrite Forall_forall in Hmissing. by apply not_elem_of_dom, Hmissing. }
  assert (∀ ps, filterV1_packages fuel ∅ ps
                = Ret (None, ∅, (fun p => WarnPackageNotFound (PName p)) <$> ps))
    as ->.
  { induction ps as [|p ps IH]; simpl; [done|].
    rewrite lookup_empty, IH. done. }
  cbn [obind]. by rewrite Hval.
Qed.

(** X14.  Without range expressions the channel loop of [filterV1] leaves
    the package as it is, never fails, and warns once, in the order of the
    configuration, for each channel entry whose name is not a channel of
    the package. *)
Theorem filterV1_channels_without_ranges fuel pName pkgModel cs :
  Forall (fun c => VersionRange c = "") cs →
  filterV1_channels fuel pName pkgModel cs
  = Ret (None, pkgModel,
         (fun c => WarnChannelNotFound (CName c) pName)
           <$> filter (fun c => CName c ∉ dom (Channels pkgModel)) cs).
Proof.
  induction cs as [|c cs IH]; intros Hcs; simpl; [done|].
  apply Forall_cons in Hcs as [Hc Hcs]. rewrite filter_cons.
  destruct (Channels pkgModel !! CName c) as [ch|] eqn:Hlook.
  - rewrite decide_False by (by intros Hne). rewrite IH by done.
    rewrite decide_False; [done|].
    intros Hnot. apply Hnot, elem_of_dom. eauto.
  - rewrite IH by done. cbn [obind].
    rewrite decide_True by (by apply not_elem_of_dom). done.
Qed.

End MissingNames.

(** ** Panics *)

Section Panics.
Context {sem : SemverLib} {reg : RegistryLib}.

Lemma filterV1_channels_no_nil fuel pName pkgModel cs :
  filterV1_channels fuel pName pkgModel cs ≠ NilDeref.
Proof.
  revert pkgModel. induction cs as [|c cs IH]; intros pkgModel; simpl; [done|].
  destruct (Channels pkgModel !! CName c) as [ch|].
  - case_decide; [|apply IH].
    pose proof (filterBundles_no_nil fuel ch c) as Hb.
    destruct (filterBundles fuel ch c) as [| |[[[e|] ch'] ws]];
      cbn [obind]; try done.
    pose proof (IH (mkPackage (PkgName pkgModel) (DefaultChannel pkgModel)
                      (<[CName c := ch']> (Channels pkgModel)))) as Hr.
    destruct (filterV1_channels fuel pName _ cs) as [| |[[e' p'] ws']];
      cbn [obind]; done.
  - pose proof (IH pkgModel) as Hr.
    destruct (filterV1_channels fuel pName pkgModel cs) as [| |[[e' p'] ws']];
      cbn [obind]; done.
Qed.

Lemma filterV1_packages_no_nil fuel (m : Model) ps :
  filterV1_packages fuel m ps ≠ NilDeref.
Proof.
  revert m. induction ps as [|p ps IH]; intros m; simpl; [done|].
  destruct (m !! PName p) as [pkgModel|].
  2:{ pose proof (IH m) as Hr.
      destruct (filterV1_packages fuel m ps) as [| |[[e' m'] ws']];
        cbn [obind]; done. }
  destruct (filterChannels pkgModel p) as [[[e|] pkgModel1] ws1]; [done|].
  pose proof (filterV1_channels_no_nil fuel (PName p) pkgModel1 (PChannels p))
    as Hc.
  destruct (filterV1_channels fuel (PName p) pkgModel1 (PChannels p))
    as [| |[[[e|] pkgModel2] ws2]]; cbn [obind]; try done.
  pose proof (IH (<[PName p := pkgModel2]> m)) as Hr.
  destruct (filterV1_packages fuel _ ps) as [| |[[e' m'] ws']];
    cbn [obind]; done.
Qed.

(** No input makes [filterV1] dereference a nil pointer. *)
Lemma filterV1_no_nil fuel fbc configuration :
  filterV1 fuel fbc configuration ≠ NilDeref.
Proof.
  unfold filterV1. destruct (ConvertToModel fbc) as [e|m]; [done|].
  pose proof (filterV1_packages_no_nil fuel
                (filterPackages m (Packages configuration))
                (Packages configuration)) as Hp.
  destruct (filterV1_packages fuel _ _) as [| |[[[e|] m2] ws]];
    cbn [obind]; try done.
  by destruct (Validate m2).
Qed.

(** X15.  [main] panics exactly when it gets as far as writing with an
    output format that is neither [yaml] nor [json] (the default of the
    flag is the empty string): then the filtering has succeeded and the
    nil [write] is called.  With one of the two formats it never
    panics. *)
Theorem main_panics_on_output_format {env : Environment} fuel configFile
    migrate output args :
  main fuel configFile migrate output args = NilDeref
  ↔ output ≠ "yaml" ∧ output ≠ "json"
    ∧ ∃ configData config fbc fbc' warnings,
        ReadFile configFile = inr configData
        ∧ Unmarshal configData = inr config
        ∧ configRejected config = false
        ∧ Render args migrate = inr fbc
        ∧ filterV1 fuel fbc config = Ret (None, fbc', warnings).
Proof.
  unfold main. split.
  - destruct (ReadFile configFile) as [e|configData] eqn:Hread; [done|].
    destruct (Unmarshal configData) as [e|config] eqn:Hparse; [done|].
    destruct (configRejected config) eqn:Hrej; [done|].
    destruct (Render args migrate) as [e|fbc] eqn:Hrender; [done|].
    pose proof (filterV1_no_nil fuel fbc config) as Hnil.
    destruct (filterV1 fuel fbc config) as [| |[[[e|] fbc'] ws]] eqn:Hrun;
      cbn [obind]; try done.
    case_decide as Hyaml.
    { cbn [obind]. by destruct (WriteYAML fbc'). }
    case_decide as Hjson.
    { cbn [obind]. by destruct (WriteJSON fbc'). }
    intros _. split; [done|]. split; [done|].
    by exists configData, config, fbc, fbc', ws.
  - intros (Hyaml & Hjson & configData & config & fbc & fbc' & ws
            & -> & -> & -> & -> & ->).
    cbn [obind]. by rewrite !decide_False by done.
Qed.
End Panics.

(** On the catalog, naming two packages it does not have. *)
Lemma filterV1_unknown_packages_witness :
  filterV1 0 catalog
    (configOf [mkV1Package "baz" "" []; mkV1Package "qux" "" []])
  = Ret (None, ∅, [WarnPackageNotFound "baz"; WarnPackageNotFound "qux"]).
Proof.
  apply (filterV1_unknown_packages (sem := semver) (reg := registry) 0 catalog
           (configOf [mkV1Package "baz" "" []; mkV1Package "qux" "" []])
           catalog).
  - reflexivity.
  - apply (bool_decide_unpack _). by vm_compute.
  - apply (bool_decide_unpack _). by vm_compute.
  - reflexivity.
Defined.

(** On [foo], listing its channel [stable] and two it does not have. *)
Lemma filterV1_channels_without_ranges_witness :
  filterV1_channels 0 "foo" pkgFoo
    [mkV1Channel "beta" ""; mkV1Channel "stable" ""; mkV1Channel "gamma" ""]
  = Ret (None, pkgFoo,
         (fun c => WarnChannelNotFound (CName c) "foo")
           <$> filter (fun c => CName c ∉ dom (Channels pkgFoo))
                 [mkV1Channel "beta" ""; mkV1Channel "stable" "";
                  mkV1Channel "gamma" ""]).
Proof.
  apply (filterV1_channels_without_ranges (sem := semver) (reg := registry)).
  apply (bool_decide_unpack _). by vm_compute.
Defined.

(** ** The whole filtering only removes *)

Lemma shrunkFrom_refl p : shrunkFrom p p.
Proof. split; [done|]. intros cn ch Hch. exists ch. by repeat split. Qed.

Lemma shrunkFrom_trans p1 p2 p3 :
  shrunkFrom p1 p2 → shrunkFrom p2 p3 → shrunkFrom p1 p3.
Proof.
  intros [Hn1 H1] [Hn2 H2]. split; [congruence|]. intros cn ch1 Hch1.
  destruct (H1 cn ch1 Hch1) as (ch2 & Hch2 & Ha & Hb & Hc).
  destruct (H2 cn ch2 Hch2) as (ch3 & Hch3 & Ha' & Hb' & Hc').
  exists ch3. split; [done|]. split; [congruence|]. split; [congruence|].
  by etrans.
Qed.

Lemma prunedFrom_shrunkFrom p' p : prunedFrom p' p → shrunkFrom p' p.
Proof.
  intros [Hn Hsub]. split; [done|]. intros cn ch Hch. exists ch.
  split; [by eapply lookup_weaken | done].
Qed.

Lemma keyedBundles_pruned p' p :
  prunedFrom p' p → keyedBundles p → keyedBundles p'.
Proof.
  intros [_ Hsub] Hp cn ch Hch. apply (Hp cn). by eapply lookup_weaken.
Qed.

Section OnlyRemoves.
Context {sem : SemverLib} {reg : RegistryLib}.
Hypothesis Hhead :
  ∀ ch first, keyedBy Name (Bundles ch) → Head ch = inr first →
              Bundles ch !! Name first = Some first.

Lemma filterV1_channels_shrinks fuel pName pkgModel cs err pkgModel' warnings :
  keyedBundles pkgModel →
  filterV1_channels fuel pName pkgModel cs = Ret (err, pkgModel', warnings) →
  shrunkFrom pkgModel' pkgModel ∧ keyedBundles pkgModel'.
Proof.
  revert pkgModel err pkgModel' warnings.
  induction cs as [|c cs IH]; intros pkgModel err pkgModel' warnings Hk; simpl.
  { intros [= <- <- <-]. split; [apply shrunkFrom_refl | done]. }
  destruct (Channels pkgModel !! CName c) as [ch|] eqn:Hlook.
  2:{ destruct (filterV1_channels fuel pName pkgModel cs)
        as [| |[[e' p'] ws']] eqn:Hrec; cbn [obind]; try done.
      intros [= <- <- <-]. by eapply IH. }
  case_decide; [|by apply IH].
  destruct (filterBundles fuel ch c) as [| |[[e1 ch'] ws1]] eqn:Hrun;
    cbn [obind]; try done.
  set (pkg1 := mkPackage (PkgName pkgModel) (DefaultChannel pkgModel)
                 (<[CName c := ch']> (Channels pkgModel))).
  assert (shrunkFrom pkg1 pkgModel ∧ keyedBundles pkg1) as [Hs1 Hk1].
  { pose proof (Hk _ _ Hlook) as Hkch.
    destruct (Head ch) as [eh|first] eqn:Hh.
    { unfold filterBundles in Hrun. rewrite Hh in Hrun.
      injection Hrun as <- <- <-. subst pkg1. rewrite insert_id by done.
      split; [|done]. split; [done|]. intros cn ch0 Hch0. exists ch0.
      by repeat split. }
    destruct (filterBundles_submap _ _ _ _ _ _ _ Hkch Hh
                (Hhead _ _ Hkch Hh) Hrun) as (Hn & Hp & Hfail & Hok).
    assert (Bundles ch' ⊆ Bundles ch) as Hsub.
    { destruct e1 as [e1|]; [by rewrite Hfail | by apply Hok]. }
    split.
    - split; [done|]. intros cn ch0. subst pkg1. simpl.
      rewrite lookup_insert. case_decide as Hcn.
      + subst cn. intros [= <-]. by exists ch.
      + intros Hch0. exists ch0. by repeat split.
    - intros cn ch0. subst pkg1. simpl.
      rewrite lookup_insert. case_decide as Hcn.
      + intros [= <-]. by eapply keyedBy_subseteq.
      + apply Hk. }
  destruct e1 as [e1|].
  { intros [= <- <- <-]. done. }
  destruct (filterV1_channels fuel pName pkg1 cs)
    as [| |[[e' p'] ws']] eqn:Hrec; cbn [obind]; try done.
  intros [= <- <- <-].
  destruct (IH _ _ _ _ Hk1 Hrec) as [Hs Hk']. split; [|done].
  by eapply shrunkFrom_trans.
Qed.

Lemma filterV1_packages_shrinks fuel (m0 m : Model) ps err m' warnings :
  (∀ n p', m !! n = Some p' →
           ∃ p, m0 !! n = Some p ∧ shrunkFrom p' p ∧ keyedBundles p') →
  filterV1_packages fuel m ps = Ret (err, m', warnings) →
  ∀ n p', m' !! n = Some p' →
          ∃ p, m0 !! n = Some p ∧ shrunkFrom p' p ∧ keyedBundles p'.
Proof.
  revert m err m' warnings.
  induction ps as [|p ps IH]; intros m err m' warnings Hm; simpl.
  { by intros [= <- <- <-]. }
  destruct (m !! PName p) as [pkgModel|] eqn:Hlook.
  2:{ destruct (filterV1_packages fuel m ps) as [| |[[e' m1] ws]] eqn:Hrec;
        cbn [obind]; try done.
      intros [= <- <- <-]. by eapply IH. }
  destruct (Hm _ _ Hlook) as (p0 & Hp0 & Hs0 & Hk0).
  assert (∀ pkg, shrunkFrom pkg pkgModel → keyedBundles pkg →
                 ∀ n p', <[PName p := pkg]> m !! n = Some p' →
                   ∃ p1, m0 !! n = Some p1 ∧ shrunkFrom p' p1 ∧ keyedBundles p')
    as Hins.
  { intros pkg Hs Hk n p'. rewrite lookup_insert. case_decide as Hn.
    - subst n. intros [= <-]. exists p0. split; [done|].
      split; [by eapply shrunkFrom_trans | done].
    - apply Hm. }
  destruct (filterChannels pkgModel p) as [[e1 pkgModel1] ws1] eqn:Hfc.
  pose proof (filterChannels_pruned _ _ _ _ _ Hfc) as Hpr.
  pose proof (prunedFrom_shrunkFrom _ _ Hpr) as Hs1.
  pose proof (keyedBundles_pruned _ _ Hpr Hk0) as Hk1.
  destruct e1 as [e1|].
  { intros [= <- <- <-]. by apply Hins. }
  destruct (filterV1_channels fuel (PName p) pkgModel1 (PChannels p))
    as [| |[[e2 pkgModel2] ws2]] eqn:Hch; cbn [obind]; try done.
  destruct (filterV1_channels_shrinks _ _ _ _ _ _ _ Hk1 Hch) as [Hs2 Hk2].
  assert (shrunkFrom pkgModel2 pkgModel) as Hs by (by eapply shrunkFrom_trans).
  destruct e2 as [e2|].
  { intros [= <- <- <-]. by apply Hins. }
  destruct (filterV1_packages fuel _ ps) as [| |[[e' m1] ws]] eqn:Hrec;
    cbn [obind]; try done.
  intros [= <- <- <-]. eapply IH; [|exact Hrec]. by apply Hins.
Qed.

(** X16.  The filtering creates nothing.  On a catalog stored under names
    at every level, with a head resolver that answers with a bundle of the
    channel, every package of the catalog [filterV1] returns is a package
    the configuration names and the catalog had, under the same name;
    every channel of it is a channel the package had; every bundle of it
    is a bundle the channel had. *)
Theorem filterV1_only_removes fuel fbc configuration (m : Model) fbc'
    warnings :
  ConvertToModel fbc = inr m →
  keyedBy PkgName m →
  map_Forall (fun _ p => keyedBundles p) m →
  filterV1 fuel fbc configuration = Ret (None, fbc', warnings) →
  ∃ m' : Model,
    fbc' = ConvertFromModel m'
    ∧ ∀ n p', m' !! n = Some p' →
              n ∈ packageNames (Packages configuration)
              ∧ ∃ p, m !! n = Some p ∧ shrunkFrom p' p.
Proof.
  intros Hconv Hkeyed Hbundles. unfold filterV1. rewrite Hconv.
  destruct (filterV1_packages fuel _ _) as [| |[[[e|] m2] ws]] eqn:Hrun;
    cbn [obind]; try done.
  destruct (Validate m2); [done|]. intros [= <- <-].
  exists m2. split; [done|]. intros n p' Hn.
  eapply (filterV1_packages_shrinks fuel
            (filterPackages m (Packages configuration))) in Hrun
    as (p & Hp & Hs & _); [| |exact Hn].
  - rewrite filterPackages_lookup in Hp by done.
    case_decide; [|done]. split; [done|]. by exists p.
  - intros k q Hq. exists q. split; [done|].
    split; [apply shrunkFrom_refl|]. apply (Hbundles k).
    rewrite filterPackages_lookup in Hq by done. by case_decide.
Qed.
End OnlyRemoves.

(** The head of the scenarios is a bundle of the channel. *)
Lemma graphHead_owned ch first :
  keyedBy Name (Bundles ch) → graphHead ch = inr first →
  Bundles ch !! Name first = Some first.
Proof.
  intros Hkeyed. unfold graphHead.
  destruct (filter _ _) as [|b [|b' l]] eqn:Hf; try done.
  intros [= <-].
  assert (b ∈ filter (fun b => Name b ∉ incoming ch)
                (snd <$> map_to_list (Bundles ch))) as Hb
    by (rewrite Hf; by left).
  apply list_elem_of_filter in Hb as [_ Hb].
  apply list_elem_of_fmap in Hb as ([k v] & -> & Hkv).
  apply elem_of_map_to_list in Hkv. simpl. by rewrite (Hkeyed _ _ Hkv).
Qed.

(** On the catalog, keeping of [foo] the bundles of [stable] from v1.1.0
    on. *)
Lemma filterV1_only_removes_witness :
  ∃ m' : Model,
    {["foo" := mkPackage "foo" "stable"
                 {["stable" := channelOf "foo" "stable" [v110; v200]]}]}
    = @ConvertFromModel registry m'
    ∧ ∀ n p', m' !! n = Some p' →
              n ∈ packageNames
                    [mkV1Package "foo" "" [mkV1Channel "stable" ">=1.1.0"]]
              ∧ ∃ p, catalog !! n = Some p ∧ shrunkFrom p' p.
Proof.
  apply (filterV1_only_removes (sem := semver) (reg := registry)
           graphHead_owned 3 catalog
           (configOf [mkV1Package "foo" "" [mkV1Channel "stable" ">=1.1.0"]])
           catalog _ []).
  - reflexivity.
  - apply (bool_decide_unpack _). by vm_compute.
  - apply (bool_decide_unpack _). by vm_compute.
  - by vm_compute.
Defined.

(** With the flag [-o] left at its default, after a filtering that
    succeeds. *)
Lemma main_panics_on_output_format_witness :
  main (env := envOf (configOf [mkV1Package "foo" "" []])) 0 "filter.yaml"
       false "" ["catalog"]
  = NilDeref.
Proof.
  apply (proj2 (main_panics_on_output_format
                  (env := envOf (configOf [mkV1Package "foo" "" []]))
                  0 "filter.yaml" false "" ["catalog"])).
  split; [done|]. split; [done|].
  exists "", (configOf [mkV1Package "foo" "" []]), catalog,
    ({["foo" := pkgFoo]} : Model), [].
  repeat split; by vm_compute.
Defined.
